(** * A frontmatter lexer: shallow embedding and verification

    The Go program splits a document into an optional frontmatter block
    (TOML between [+++] fences, YAML between [---] fences, or a JSON object)
    and the markdown content that follows.  The lexer is a state machine over
    a byte buffer: every state is a function that returns the next state, and
    items are sent on a channel.

    The embedding keeps the Go structure: the [lexer] record has the fields of
    the Go struct, with the channel modelled as the list of items sent so far;
    every method is a function on that record; the state functions return the
    record together with the next state ([None] for Go's [nil]).  Positions
    are Go [int]s and are kept in [Z]: they stay between zero and the length
    of the input, and the nesting level of the JSON state changes by at most
    one per byte read, so no wrap-around can occur.  The unbounded [for]
    loops take a fuel argument and return [None] when it runs out; the
    totality theorem shows that the fuel handed out by [lex] is always
    enough.  The goroutine and the unbuffered channel only decide when an
    item is handed over, not which items are sent nor their order, so the
    list of items of the final lexer is what the consumer receives. *)

From Stdlib Require Import Strings.String Strings.Byte.
From Stdlib Require Import ZArith List Bool Lia.
Import ListNotations.
Local Open Scope Z_scope.

(** * The model *)

(** ** Bytes and runes *)

Definition rune := Z.

Definition byteZ (b : byte) : Z := Z.of_N (Byte.to_N b).

Definition bytes (s : string) : list byte := list_byte_of_string s.

(** ** [unicode/utf8.DecodeRune]

    The lexer reads its input through Go's standard [utf8.DecodeRune].  It is
    transcribed here from the Go standard library: the [first] table is given
    by the ranges of its 256 entries, [acceptRanges] by its five rows. *)

Module utf8.

Definition RuneError : rune := 0xFFFD.

Definition maskx := 0x3F.
Definition mask2 := 0x1F.
Definition mask3 := 0x0F.
Definition mask4 := 0x07.

Definition locb := 0x80.
Definition hicb := 0xBF.

Definition xx := 0xF1.
Definition as_ := 0xF0.
Definition s1 := 0x02.
Definition s2 := 0x13.
Definition s3 := 0x03.
Definition s4 := 0x23.
Definition s5 := 0x34.
Definition s6 := 0x04.
Definition s7 := 0x44.

(** [first[b]]: information about the first byte of an encoding. *)
Definition first (b : Z) : Z :=
  if b <? 0x80 then as_
  else if b <? 0xC2 then xx
  else if b <? 0xE0 then s1
  else if b =? 0xE0 then s2
  else if b <? 0xED then s3
  else if b =? 0xED then s4
  else if b <? 0xF0 then s3
  else if b =? 0xF0 then s5
  else if b <? 0xF4 then s6
  else if b =? 0xF4 then s7
  else xx.

(** [acceptRanges[i]] as the pair (lo, hi). *)
Definition acceptRanges (i : Z) : Z * Z :=
  if i =? 0 then (locb, hicb)
  else if i =? 1 then (0xA0, hicb)
  else if i =? 2 then (locb, 0x9F)
  else if i =? 3 then (0x90, hicb)
  else if i =? 4 then (locb, 0x8F)
  else (0, 0).

(** [p[i]]; every use below is guarded by the length test of the source. *)
Definition at_ (p : list byte) (i : nat) : Z := byteZ (nth i p x00).

Definition DecodeRune (p : list byte) : rune * Z :=
  let n := Z.of_nat (length p) in
  if n <? 1 then (RuneError, 0)
  else
    let p0 := at_ p 0 in
    let x := first p0 in
    if as_ <=? x then
      (* mask := rune(x) << 31 >> 31 on int32: all ones when x is odd. *)
      let mask := - (Z.land x 1) in
      (Z.lor (Z.land p0 (Z.lnot mask)) (Z.land RuneError mask), 1)
    else
      let sz := Z.land x 7 in
      let accept := acceptRanges (Z.shiftr x 4) in
      if n <? sz then (RuneError, 1)
      else
        let b1 := at_ p 1 in
        if (b1 <? fst accept) || (snd accept <? b1) then (RuneError, 1)
        else if sz <=? 2 then
          (Z.lor (Z.shiftl (Z.land p0 mask2) 6) (Z.land b1 maskx), 2)
        else
          let b2 := at_ p 2 in
          if (b2 <? locb) || (hicb <? b2) then (RuneError, 1)
          else if sz <=? 3 then
            (Z.lor (Z.lor (Z.shiftl (Z.land p0 mask3) 12)
                          (Z.shiftl (Z.land b1 maskx) 6))
                   (Z.land b2 maskx), 3)
          else
            let b3 := at_ p 3 in
            if (b3 <? locb) || (hicb <? b3) then (RuneError, 1)
            else
              (Z.lor (Z.lor (Z.lor (Z.shiftl (Z.land p0 mask4) 18)
                                   (Z.shiftl (Z.land b1 maskx) 12))
                            (Z.shiftl (Z.land b2 maskx) 6))
                     (Z.land b3 maskx), 4).

End utf8.

(** ** Items *)

Inductive itemType : Set :=
| itemError
| itemFrontmatterTOML
| itemFrontmatterYAML
| itemFrontmatterJSON
| itemMarkdown
| itemEOF.

Record item : Set := mkItem { typ : itemType; val : list byte }.

Definition eof : rune := -1.

(** ** The lexer record and its methods *)

Record lexer : Set := mkLexer {
  input : list byte;   (* the bytes being scanned *)
  start : Z;           (* start position of this item *)
  pos   : Z;           (* current position in the input *)
  width : Z;           (* width of last rune read from input *)
  items : list item    (* items sent on the channel, oldest first *)
}.

Definition len (l : lexer) : Z := Z.of_nat (length (input l)).

(** [s[lo:]] and [s[lo:hi]].  Go panics on indices out of range; the state
    invariant proved below keeps every slice of the lexer in range. *)
Definition from (s : list byte) (lo : Z) : list byte := skipn (Z.to_nat lo) s.

Definition slice (s : list byte) (lo hi : Z) : list byte :=
  firstn (Z.to_nat (hi - lo)) (skipn (Z.to_nat lo) s).

Definition set_pos (l : lexer) (p : Z) : lexer :=
  mkLexer (input l) (start l) p (width l) (items l).

Definition set_start (l : lexer) (s : Z) : lexer :=
  mkLexer (input l) s (pos l) (width l) (items l).

Definition set_width (l : lexer) (w : Z) : lexer :=
  mkLexer (input l) (start l) (pos l) w (items l).

Definition send (l : lexer) (i : item) : lexer :=
  mkLexer (input l) (start l) (pos l) (width l) (items l ++ [i]).

(** [emit] passes an item back to the client. *)
Definition emit (t : itemType) (l : lexer) : lexer :=
  set_start (send l (mkItem t (slice (input l) (start l) (pos l)))) (pos l).

(** [next] returns the next rune in the input. *)
Definition next (l : lexer) : rune * lexer :=
  if len l <=? pos l then (eof, set_width l 0)
  else
    let '(r, w) := utf8.DecodeRune (from (input l) (pos l)) in
    (r, set_pos (set_width l w) (pos l + w)).

(** [backup] steps back one rune. *)
Definition backup (l : lexer) : lexer := set_pos l (pos l - width l).

(** [peek] returns but does not consume the next rune in the input. *)
Definition peek (l : lexer) : rune * lexer :=
  let '(r, l1) := next l in (r, backup l1).

(** [ignore] skips over the pending input before this point. *)
Definition ignore (l : lexer) : lexer := set_start l (pos l).

(** Rune literals used by the lexer. *)
Definition r_CR : rune := 13.          (* carriage return *)
Definition r_LF : rune := 10.          (* line feed *)
Definition r_plus : rune := 43.        (* plus sign *)
Definition r_minus : rune := 45.       (* hyphen-minus *)
Definition r_lbrace : rune := 123.     (* left curly bracket *)
Definition r_rbrace : rune := 125.     (* right curly bracket *)
Definition r_quote : rune := 34.       (* quotation mark *)
Definition r_backslash : rune := 92.   (* reverse solidus *)

(** [consumeCRLF] consumes next runes if end of line: one pass over
    ['\r'; '\n'], in that order. *)
Definition consumeCRLF (l : lexer) : bool * lexer :=
  fold_left
    (fun (acc : bool * lexer) (r : rune) =>
       let '(consumed, l0) := acc in
       let '(r', l1) := next l0 in
       if negb (r' =? r) then (consumed, backup l1) else (true, l1))
    [r_CR; r_LF] (false, l).

Fixpoint bytes_eqb (a b : list byte) : bool :=
  match a, b with
  | [], [] => true
  | x :: a', y :: b' => Byte.eqb x y && bytes_eqb a' b'
  | _, _ => false
  end.

(** [bytes.HasPrefix]: [len(s) >= len(prefix) && Equal(s[:len(prefix)], prefix)]. *)
Definition HasPrefix (s prefix : list byte) : bool :=
  (length prefix <=? length s)%nat && bytes_eqb (firstn (length prefix) s) prefix.

(** [hasPrefix] checks if the next bytes match the prefix. *)
Definition hasPrefix (prefix : list byte) (l : lexer) : bool :=
  HasPrefix (from (input l) (pos l)) prefix.

Definition isEndOfLine (r : rune) : bool := (r =? r_CR) || (r =? r_LF).

(** ** State functions

    A Go [stateFunc] is one of six functions; [nil] is [None]. *)

Inductive stateFunc : Set :=
| LexStart
| LexFrontmatterTOML
| LexFrontmatterYAML
| LexFrontmatterJSON
| LexMarkdown
| LexDone.

(** [errorf] sends an error item and returns [nil], which ends [run].  Every
    call in the source passes a format without verbs and no arguments, so the
    formatted text is the format itself. *)
Definition errorf (format : string) (l : lexer) : lexer * option stateFunc :=
  (send l (mkItem itemError (bytes format)), None).

Definition lexStart (l : lexer) : lexer * option stateFunc :=
  let '(r, l1) := peek l in
  if r =? r_plus then (l1, Some LexFrontmatterTOML)
  else if r =? r_minus then (l1, Some LexFrontmatterYAML)
  else if r =? r_lbrace then (l1, Some LexFrontmatterJSON)
  else (l1, Some LexMarkdown).

(** [lexFrontmatterTOML] and [lexFrontmatterYAML] are the same text in the
    source up to the delimiter rune, the fence, the item type and the two
    messages; they are embedded once, over these five parameters. *)
Section Fence.

Variable delim : rune.
Variable fence : list byte.
Variable t : itemType.
Variable invalid unclosed : string.

(** [for i := 0; i < 3; i++ { if r := l.next(); r != delim { return ... } }]:
    [false] when the loop is left by the [return]. *)
Fixpoint openFence (n : nat) (l : lexer) : bool * lexer :=
  match n with
  | O => (true, l)
  | S n' =>
      let '(r, l1) := next l in
      if negb (r =? delim) then (false, l1) else openFence n' l1
  end.

(** The search for the closing fence. *)
Fixpoint closeFence (fuel : nat) (l : lexer) : option (lexer * option stateFunc) :=
  match fuel with
  | O => None
  | S fuel' =>
      let '(r, l1) := next l in
      if r =? eof then Some (errorf unclosed l1)
      else if isEndOfLine r && hasPrefix fence l1 then
        let l2 := emit t l1 in
        let l3 := set_pos l2 (pos l2 + 3) in
        let '(_, l4) := consumeCRLF l3 in
        (* ignore ending delimiter *)
        let l5 := ignore l4 in
        Some (l5, Some LexMarkdown)
      else closeFence fuel' l1
  end.

Definition lexFrontmatterFence (fuel : nat) (l : lexer)
  : option (lexer * option stateFunc) :=
  let '(ok, l1) := openFence 3 l in
  if negb ok then Some (errorf invalid l1)
  else
    (* ignore starting delimiter *)
    let '(_, l2) := consumeCRLF l1 in
    let l3 := ignore l2 in
    closeFence fuel l3.

End Fence.

Definition fenceTOML : list byte := bytes "+++".
Definition fenceYAML : list byte := bytes "---".

Definition lexFrontmatterTOML : nat -> lexer -> option (lexer * option stateFunc) :=
  lexFrontmatterFence r_plus fenceTOML itemFrontmatterTOML
    "invalid TOML delimiter"
    "EOF looking for end TOML front matter delimiter".

Definition lexFrontmatterYAML : nat -> lexer -> option (lexer * option stateFunc) :=
  lexFrontmatterFence r_minus fenceYAML itemFrontmatterYAML
    "invalid YAML delimiter"
    "EOF looking for end YAML front matter delimiter".

(** How the [for] loop of [lexFrontmatterJSON] is left. *)
Inductive jsonExit : Set :=
| JBreak (l : lexer)
| JReturn (r : lexer * option stateFunc).

(** The [switch] of the loop body, for a rune that is not [eof]: the new
    [inQuote], [level] and lexer. *)
Definition jsonSwitch (r : rune) (inQuote : bool) (level : Z) (l : lexer)
  : bool * Z * lexer :=
  if r =? r_lbrace then (inQuote, (if negb inQuote then level + 1 else level), l)
  else if r =? r_rbrace then (inQuote, (if negb inQuote then level - 1 else level), l)
  else if r =? r_quote then (negb inQuote, level, l)
  else if r =? r_backslash then
    (* This may be an escaped quote. Make sure it's not marked as a real one. *)
    (inQuote, level, snd (next l))
  else (inQuote, level, l).

Fixpoint jsonLoop (fuel : nat) (inQuote : bool) (level : Z) (l : lexer)
  : option jsonExit :=
  match fuel with
  | O => None
  | S fuel' =>
      let '(r, l1) := next l in
      if r =? eof then
        Some (JReturn (errorf "unexpected EOF parsing JSON front matter" l1))
      else
        let '(inQuote', level', l2) := jsonSwitch r inQuote level l1 in
        if level' =? 0 then Some (JBreak l2)
        else jsonLoop fuel' inQuote' level' l2
  end.

Definition lexFrontmatterJSON (fuel : nat) (l : lexer)
  : option (lexer * option stateFunc) :=
  match jsonLoop fuel false 0 l with
  | None => None
  | Some (JReturn r) => Some r
  | Some (JBreak l1) =>
      let '(_, l2) := consumeCRLF l1 in
      Some (emit itemFrontmatterJSON l2, Some LexMarkdown)
  end.

Fixpoint lexMarkdown (fuel : nat) (l : lexer) : option (lexer * option stateFunc) :=
  match fuel with
  | O => None
  | S fuel' =>
      let '(r, l1) := next l in
      if r =? eof then Some (emit itemMarkdown l1, Some LexDone)
      else lexMarkdown fuel' l1
  end.

Definition lexDone (l : lexer) : lexer * option stateFunc :=
  (emit itemEOF l, None).

(** [state(l)]: calling a state function. *)
Definition call (fuel : nat) (state : stateFunc) (l : lexer)
  : option (lexer * option stateFunc) :=
  match state with
  | LexStart => Some (lexStart l)
  | LexFrontmatterTOML => lexFrontmatterTOML fuel l
  | LexFrontmatterYAML => lexFrontmatterYAML fuel l
  | LexFrontmatterJSON => lexFrontmatterJSON fuel l
  | LexMarkdown => lexMarkdown fuel l
  | LexDone => Some (lexDone l)
  end.

(** [run] executes state functions until the state is [nil]; it then closes
    the channel, so the items of the result are all the items delivered.
    [steps] bounds the number of state functions called, [fuel] the
    iterations of each inner loop. *)
Fixpoint run (steps fuel : nat) (state : option stateFunc) (l : lexer)
  : option lexer :=
  match state with
  | None => Some l
  | Some s =>
      match steps with
      | O => None
      | S steps' =>
          match call fuel s l with
          | None => None
          | Some (l', state') => run steps' fuel state' l'
          end
      end
  end.

(** The lexer [lex] builds. *)
Definition newLexer (inp : list byte) : lexer := mkLexer inp 0 0 0 [].

(** [lex]: the lexer after [run] has returned.  No run calls more than four
    state functions, and no inner loop iterates more than once per input
    byte plus once for the end of input. *)
Definition lex (inp : list byte) : option lexer :=
  run 4 (S (length inp)) (Some LexStart) (newLexer inp).

(** The items the consumer receives. *)
Definition scan (inp : list byte) : option (list item) :=
  option_map items (lex inp).

(** ** The state invariant and auxiliary notions used by the statements *)

(** [0 <= start <= pos <= len(input)]. *)
Definition good (l : lexer) : Prop :=
  0 <= start l /\ start l <= pos l /\ pos l <= len l.

Definition LF : byte := x0a.
Definition CR : byte := x0d.
Definition DQ : byte := x22.   (* quotation mark *)
Definition BS : byte := x5c.   (* reverse solidus *)

(** The number of bytes of the line break at the head of [s], read as
    [consumeCRLF] reads it: an optional carriage return, then an optional
    line feed. *)
Definition lineBreakLen (s : list byte) : Z :=
  match s with
  | [] => 0
  | b :: rest =>
      if byteZ b =? r_CR then
        match rest with
        | [] => 1
        | c :: _ => if byteZ c =? r_LF then 2 else 1
        end
      else if byteZ b =? r_LF then 1 else 0
  end.

(** A finished run leaves the end marker or an error as the last item. *)
Definition endsRun (its : list item) : Prop :=
  exists pre i, its = pre ++ [i] /\ (typ i = itemEOF \/ typ i = itemError).

(** The lexer after a finished run: the last item sent is an error, or it is
    the end marker and every byte of the input lies before [start]. *)
Definition finished (l : lexer) : Prop :=
  exists pre i,
    items l = pre ++ [i] /\
    (typ i = itemError \/ (typ i = itemEOF /\ start l = len l)).

(** The state functions in the order the state machine can visit them. *)
Definition rank (s : stateFunc) : nat :=
  match s with
  | LexStart => 3
  | LexFrontmatterTOML | LexFrontmatterYAML | LexFrontmatterJSON => 2
  | LexMarkdown => 1
  | LexDone => 0
  end.

(** ** Documents used in the statements *)

Definition b_plus : byte := x2b.
Definition b_minus : byte := x2d.
Definition b_lbrace : byte := x7b.

(** [+++], line feed, [A], line feed, [+++], line feed, [BODY]. *)
Definition docTOML : list byte :=
  bytes "+++" ++ [LF] ++ bytes "A" ++ [LF] ++ bytes "+++" ++ [LF] ++ bytes "BODY".

(** The JSON object with one nested object, [{ a : { b : 1 } }] with its keys
    quoted. *)
Definition objJSON : list byte :=
  bytes "{" ++ [DQ] ++ bytes "a" ++ [DQ] ++ bytes ": {" ++ [DQ] ++ bytes "b"
    ++ [DQ] ++ bytes ": 1}}".

(** The object, a line feed, [BODY]. *)
Definition docJSON : list byte := objJSON ++ [LF] ++ bytes "BODY".

(** [+++], line feed, [A]: the closing fence is missing. *)
Definition docUnclosedTOML : list byte := bytes "+++" ++ [LF] ++ bytes "A".

(** A frontmatter with an empty body: fence, line feed, fence, line feed,
    [BODY]. *)
Definition docEmptyYAML : list byte :=
  bytes "---" ++ [LF] ++ bytes "---" ++ [LF] ++ bytes "BODY".

Definition docEmptyTOML : list byte :=
  bytes "+++" ++ [LF] ++ bytes "+++" ++ [LF] ++ bytes "BODY".

(** An empty frontmatter body followed by content that holds a fence of its
    own after a line feed. *)
Definition docEmptyYAMLThenFence : list byte :=
  bytes "---" ++ [LF] ++ bytes "---" ++ [LF] ++ bytes "foo" ++ [LF]
    ++ bytes "---" ++ [LF] ++ bytes "bar".

Definition unclosedTOML : string :=
  "EOF looking for end TOML front matter delimiter".
Definition unclosedYAML : string :=
  "EOF looking for end YAML front matter delimiter".

(** [closesLater fence s]: some line-break byte of [s] is immediately
    followed by the fence, which is what the search of [closeFence] looks
    for. *)
Fixpoint closesLater (fence s : list byte) : bool :=
  match s with
  | [] => false
  | e :: s' =>
      (isEndOfLine (byteZ e) && HasPrefix s' fence) || closesLater fence s'
  end.

(** ** One iteration of the JSON loop

    [jsonIter] is the body of the loop of [lexFrontmatterJSON] up to the test
    of [level]: read a rune, stop at the end of the input ([None]), otherwise
    go through the [switch].  [jsonIterN n] runs it [n] times in a row,
    whatever the levels in between. *)

Definition jsonState : Set := bool * Z * lexer.

Definition jsonIter (st : jsonState) : option jsonState :=
  let '(inQuote, level, l) := st in
  let '(r, l1) := next l in
  if r =? eof then None else Some (jsonSwitch r inQuote level l1).

Fixpoint jsonIterN (n : nat) (st : jsonState) : option jsonState :=
  match n with
  | O => Some st
  | S n' =>
      match jsonIter st with
      | None => None
      | Some st' => jsonIterN n' st'
      end
  end.

Definition jsonLevel (st : jsonState) : Z := snd (fst st).

(** The object of the escaped-quote example: a string value made of an
    escaped quote, a right brace and another escaped quote. *)
Definition objEscaped : list byte :=
  bytes "{" ++ [DQ] ++ bytes "a" ++ [DQ] ++ bytes ": " ++ [DQ] ++ [BS; DQ]
    ++ bytes "}" ++ [BS; DQ] ++ [DQ] ++ bytes "}".

(** ** The traced lexer

    To speak of every intermediate state of a run, and of the bytes that
    [ignore] drops, the lexer is run a second time with a log.  Each
    primitive of the traced lexer is the primitive above followed by one log
    entry, which records the operation and the [start] and [pos] it leaves;
    the state functions are the ones above, word for word, over the traced
    primitives.  The log is never read.  The lemmas [*_erase] show that
    dropping the log gives back the lexer above. *)

Inductive action : Set :=
| ANext
| ABackup
| APeek
| AIgnore (dropped : list byte)    (* the bytes of the span that is dropped *)
| AEmit (i : item)                 (* the item that is sent by [emit] *)
| AError (i : item)                (* the item that is sent by [errorf] *)
| AAdvance.                        (* [l.pos += 3] *)

Record event : Set := mkEvent { act : action; at_start : Z; at_pos : Z }.

Definition tlexer : Set := lexer * list event.

Definition log (a : action) (l : lexer) (tr : list event) : tlexer :=
  (l, tr ++ [mkEvent a (start l) (pos l)]).

Definition emitT (t : itemType) (s : tlexer) : tlexer :=
  let l := fst s in
  log (AEmit (mkItem t (slice (input l) (start l) (pos l)))) (emit t l) (snd s).

Definition nextT (s : tlexer) : rune * tlexer :=
  let '(r, l1) := next (fst s) in (r, log ANext l1 (snd s)).

Definition backupT (s : tlexer) : tlexer :=
  log ABackup (backup (fst s)) (snd s).

Definition peekT (s : tlexer) : rune * tlexer :=
  let '(r, s1) := nextT s in
  let s2 := backupT s1 in
  (r, log APeek (fst s2) (snd s2)).

Definition ignoreT (s : tlexer) : tlexer :=
  let l := fst s in
  log (AIgnore (slice (input l) (start l) (pos l))) (ignore l) (snd s).

Definition advanceT (s : tlexer) : tlexer :=
  let l := fst s in log AAdvance (set_pos l (pos l + 3)) (snd s).

Definition errorfT (format : string) (s : tlexer) : tlexer * option stateFunc :=
  let i := mkItem itemError (bytes format) in
  (log (AError i) (send (fst s) i) (snd s), None).

Definition consumeCRLFT (s : tlexer) : bool * tlexer :=
  fold_left
    (fun (acc : bool * tlexer) (r : rune) =>
       let '(consumed, s0) := acc in
       let '(r', s1) := nextT s0 in
       if negb (r' =? r) then (consumed, backupT s1) else (true, s1))
    [r_CR; r_LF] (false, s).

Definition lexStartT (s : tlexer) : tlexer * option stateFunc :=
  let '(r, s1) := peekT s in
  if r =? r_plus then (s1, Some LexFrontmatterTOML)
  else if r =? r_minus then (s1, Some LexFrontmatterYAML)
  else if r =? r_lbrace then (s1, Some LexFrontmatterJSON)
  else (s1, Some LexMarkdown).

Section FenceT.

Variable delim : rune.
Variable fence : list byte.
Variable t : itemType.
Variable invalid unclosed : string.

Fixpoint openFenceT (n : nat) (s : tlexer) : bool * tlexer :=
  match n with
  | O => (true, s)
  | S n' =>
      let '(r, s1) := nextT s in
      if negb (r =? delim) then (false, s1) else openFenceT n' s1
  end.

Fixpoint closeFenceT (fuel : nat) (s : tlexer)
  : option (tlexer * option stateFunc) :=
  match fuel with
  | O => None
  | S fuel' =>
      let '(r, s1) := nextT s in
      if r =? eof then Some (errorfT unclosed s1)
      else if isEndOfLine r && hasPrefix fence (fst s1) then
        let s2 := emitT t s1 in
        let s3 := advanceT s2 in
        let '(_, s4) := consumeCRLFT s3 in
        let s5 := ignoreT s4 in
        Some (s5, Some LexMarkdown)
      else closeFenceT fuel' s1
  end.

Definition lexFrontmatterFenceT (fuel : nat) (s : tlexer)
  : option (tlexer * option stateFunc) :=
  let '(ok, s1) := openFenceT 3 s in
  if negb ok then Some (errorfT invalid s1)
  else
    let '(_, s2) := consumeCRLFT s1 in
    let s3 := ignoreT s2 in
    closeFenceT fuel s3.

End FenceT.

Definition lexFrontmatterTOMLT : nat -> tlexer -> option (tlexer * option stateFunc) :=
  lexFrontmatterFenceT r_plus fenceTOML itemFrontmatterTOML
    "invalid TOML delimiter"
    "EOF looking for end TOML front matter delimiter".

Definition lexFrontmatterYAMLT : nat -> tlexer -> option (tlexer * option stateFunc) :=
  lexFrontmatterFenceT r_minus fenceYAML itemFrontmatterYAML
    "invalid YAML delimiter"
    "EOF looking for end YAML front matter delimiter".

Inductive jsonExitT : Set :=
| JBreakT (s : tlexer)
| JReturnT (r : tlexer * option stateFunc).

Definition jsonSwitchT (r : rune) (inQuote : bool) (level : Z) (s : tlexer)
  : bool * Z * tlexer :=
  if r =? r_lbrace then (inQuote, (if negb inQuote then level + 1 else level), s)
  else if r =? r_rbrace then (inQuote, (if negb inQuote then level - 1 else level), s)
  else if r =? r_quote then (negb inQuote, level, s)
  else if r =? r_backslash then (inQuote, level, snd (nextT s))
  else (inQuote, level, s).

Fixpoint jsonLoopT (fuel : nat) (inQuote : bool) (level : Z) (s : tlexer)
  : option jsonExitT :=
  match fuel with
  | O => None
  | S fuel' =>
      let '(r, s1) := nextT s in
      if r =? eof then
        Some (JReturnT (errorfT "unexpected EOF parsing JSON front matter" s1))
      else
        let '(inQuote', level', s2) := jsonSwitchT r inQuote level s1 in
        if level' =? 0 then Some (JBreakT s2)
        else jsonLoopT fuel' inQuote' level' s2
  end.

Definition lexFrontmatterJSONT (fuel : nat) (s : tlexer)
  : option (tlexer * option stateFunc) :=
  match jsonLoopT fuel false 0 s with
  | None => None
  | Some (JReturnT r) => Some r
  | Some (JBreakT s1) =>
      let '(_, s2) := consumeCRLFT s1 in
      Some (emitT itemFrontmatterJSON s2, Some LexMarkdown)
  end.

Fixpoint lexMarkdownT (fuel : nat) (s : tlexer)
  : option (tlexer * option stateFunc) :=
  match fuel with
  | O => None
  | S fuel' =>
      let '(r, s1) := nextT s in
      if r =? eof then Some (emitT itemMarkdown s1, Some LexDone)
      else lexMarkdownT fuel' s1
  end.

Definition lexDoneT (s : tlexer) : tlexer * option stateFunc :=
  (emitT itemEOF s, None).

Definition callT (fuel : nat) (state : stateFunc) (s : tlexer)
  : option (tlexer * option stateFunc) :=
  match state with
  | LexStart => Some (lexStartT s)
  | LexFrontmatterTOML => lexFrontmatterTOMLT fuel s
  | LexFrontmatterYAML => lexFrontmatterYAMLT fuel s
  | LexFrontmatterJSON => lexFrontmatterJSONT fuel s
  | LexMarkdown => lexMarkdownT fuel s
  | LexDone => Some (lexDoneT s)
  end.

Fixpoint runT (steps fuel : nat) (state : option stateFunc) (s : tlexer)
  : option tlexer :=
  match state with
  | None => Some s
  | Some st =>
      match steps with
      | O => None
      | S steps' =>
          match callT fuel st s with
          | None => None
          | Some (s', state') => runT steps' fuel state' s'
          end
      end
  end.

Definition lexT (inp : list byte) : option tlexer :=
  runT 4 (S (length inp)) (Some LexStart) (newLexer inp, []).

(** The items sent, read off the log. *)
Definition sent (tr : list event) : list item :=
  flat_map (fun e => match act e with
                     | AEmit i | AError i => [i]
                     | _ => []
                     end) tr.

(** The bytes accounted for by a log, in order: the values of the items sent
    by [emit] that are neither errors nor end markers, and the spans dropped
    by [ignore]. *)
Definition covered (tr : list event) : list byte :=
  flat_map (fun e => match act e with
                     | AIgnore bs => bs
                     | AEmit i =>
                         match typ i with
                         | itemError | itemEOF => []
                         | _ => val i
                         end
                     | _ => []
                     end) tr.

(** The state invariant at a log entry, for an input of [n] bytes; right
    after [emit], moreover, [start] equals [pos]. *)
Definition evOK (n : Z) (e : event) : Prop :=
  0 <= at_start e /\ at_start e <= at_pos e /\ at_pos e <= n /\
  (forall i, act e = AEmit i -> at_start e = at_pos e).

(** What holds of a traced lexer throughout a run on [inp]. *)
Definition traceInv (inp : list byte) (s : tlexer) : Prop :=
  input (fst s) = inp /\
  good (fst s) /\
  Forall (evOK (Z.of_nat (length inp))) (snd s) /\
  sent (snd s) = items (fst s) /\
  covered (snd s) = slice inp 0 (start (fst s)).

(** Dropping the log of the result of a traced state function. *)
Definition erase (r : tlexer * option stateFunc) : lexer * option stateFunc :=
  (fst (fst r), snd r).

(** ** Reference functions for the further properties

    What the lexer does on a document that opens with a fence, written on
    the list of bytes, without positions: these are not part of the model,
    the lexer is compared with them. *)

(** The index of the first line-break byte of [s] that is immediately
    followed by the fence. *)
Fixpoint firstClose (fence s : list byte) : option nat :=
  match s with
  | [] => None
  | e :: s' =>
      if isEndOfLine (byteZ e) && HasPrefix s' fence then Some O
      else option_map S (firstClose fence s')
  end.

(** [s] without the line break at its head. *)
Definition dropLineBreak (s : list byte) : list byte :=
  skipn (Z.to_nat (lineBreakLen s)) s.

(** The items of a document made of the fence and [s0]: the line break
    after the fence is dropped; the frontmatter runs through the first line
    break that is followed by the fence; the fence and the line break after
    it are dropped; the rest is the content. *)
Definition fenceItems (fence : list byte) (t : itemType) (unclosed : string)
  (s0 : list byte) : list item :=
  let s := dropLineBreak s0 in
  match firstClose fence s with
  | None => [mkItem itemError (bytes unclosed)]
  | Some n =>
      [mkItem t (firstn (S n) s);
       mkItem itemMarkdown (dropLineBreak (skipn 3 (skipn (S n) s)));
       mkItem itemEOF []]
  end.

(** The state [lexStart] chooses, read off the first byte of what is left of
    the input. *)
Definition startState (s : list byte) : stateFunc :=
  match s with
  | [] => LexMarkdown
  | b :: _ =>
      if byteZ b =? r_plus then LexFrontmatterTOML
      else if byteZ b =? r_minus then LexFrontmatterYAML
      else if byteZ b =? r_lbrace then LexFrontmatterJSON
      else LexMarkdown
  end.

Definition invalidTOML : string := "invalid TOML delimiter".
Definition invalidYAML : string := "invalid YAML delimiter".
Definition unexpectedJSON : string := "unexpected EOF parsing JSON front matter".

Definition b_rbrace : byte := x7d.

(** [b] occurs in [s]. *)
Definition hasByte (b : byte) (s : list byte) : bool := existsb (Byte.eqb b) s.

(** [s] holds a line-break byte. *)
Definition hasLineBreak (s : list byte) : bool :=
  existsb (fun b => isEndOfLine (byteZ b)) s.

(** The three shapes a finished run can have, for the input [inp]: the
    content alone, one frontmatter item and the content, or one error. *)
Definition runShape (inp : list byte) (its : list item) : Prop :=
  its = [mkItem itemMarkdown inp; mkItem itemEOF []] \/
  (exists t v w pre,
      its = [mkItem t v; mkItem itemMarkdown w; mkItem itemEOF []] /\
      (t = itemFrontmatterTOML \/ t = itemFrontmatterYAML \/
       t = itemFrontmatterJSON) /\
      v <> [] /\ inp = pre ++ w) \/
  (exists m, its = [mkItem itemError m]).

(** ** The callers: [parse] and [main]

    [parse] reads the whole stream, runs the lexer and prints the items it
    receives until the end marker.  The stream is modelled by the result of
    [ioutil.ReadAll]; what [fmt.Println] receives is recorded in order, the
    items as items (their rendering by [String] is not modelled). *)

Inductive readResult : Set :=
| ReadOK (b : list byte)
| ReadFailed (err : string).

(** [for item := range items { if item.typ == itemEOF { break }; Println }]. *)
Fixpoint printUntilEOF (its : list item) : list item :=
  match its with
  | [] => []
  | i :: rest =>
      match typ i with
      | itemEOF => []
      | _ => i :: printUntilEOF rest
      end
  end.

(** The items printed and the error returned ([None] for [nil]). *)
Definition parse (r : readResult) : option (list item * option string) :=
  match r with
  | ReadFailed err =>
      Some ([], Some (String.append "failed to read note content: " err))
  | ReadOK b =>
      match scan b with
      | None => None
      | Some its => Some (printUntilEOF its, None)
      end
  end.



(** * Proofs *)

(** ** Bytes *)

Lemma byteZ_range (b : byte) : 0 <= byteZ b < 256.
Proof.
  unfold byteZ. pose proof (Byte.to_N_bounded b) as H.
  split; [apply N2Z.is_nonneg|].
  apply N.lt_succ_r in H. change 256 with (Z.of_N 256).
  apply N2Z.inj_lt. exact H.
Qed.

Lemma byteZ_inj (a b : byte) : byteZ a = byteZ b -> a = b.
Proof.
  unfold byteZ. intros H. apply N2Z.inj in H.
  apply (f_equal Byte.of_N) in H. rewrite !Byte.of_to_N in H. congruence.
Qed.

(** ** Facts about [utf8.DecodeRune] *)

Lemma lor_ge_r (a b : Z) : 0 <= a -> b <= Z.lor a b.
Proof.
  intros Ha. pose proof (Z.sub_lor_l_same_r a b) as H.
  assert (0 <= Z.land a (Z.lnot b)) by (apply Z.land_nonneg; left; exact Ha).
  lia.
Qed.

Lemma lor_ge_l (a b : Z) : 0 <= b -> a <= Z.lor a b.
Proof. intros Hb. rewrite Z.lor_comm. apply lor_ge_r. exact Hb. Qed.

Lemma first_cases (b : Z) :
  (b < 128 /\ utf8.first b = 240) \/
  (128 <= b /\ utf8.first b = 241) \/
  (194 <= b < 224 /\ utf8.first b = 2) \/
  (b = 224 /\ utf8.first b = 19) \/
  (225 <= b < 240 /\ utf8.first b = 3) \/
  (b = 237 /\ utf8.first b = 35) \/
  (b = 240 /\ utf8.first b = 52) \/
  (241 <= b < 244 /\ utf8.first b = 4) \/
  (b = 244 /\ utf8.first b = 68).
Proof.
  unfold utf8.first, utf8.as_, utf8.xx, utf8.s1, utf8.s2, utf8.s3, utf8.s4,
    utf8.s5, utf8.s6, utf8.s7.
  repeat match goal with
         | |- context [if ?a <? ?c then _ else _] =>
             destruct (Z.ltb_spec a c)
         | |- context [if ?a =? ?c then _ else _] =>
             destruct (Z.eqb_spec a c)
         end; lia.
Qed.

Ltac first_split b :=
  let H := fresh "Hb" in
  let F := fresh "Hfirst" in
  destruct (first_cases b)
    as [[H F]|[[H F]|[[H F]|[[H F]|[[H F]|[[H F]|[[H F]|[[H F]|[H F]]]]]]]]].

Ltac decode_ifs :=
  repeat match goal with
         | |- context [if ?c then _ else _] =>
             let E := fresh "E" in destruct c eqn:E
         end.

Lemma DecodeRune_width (p : list byte) :
  p <> [] ->
  1 <= snd (utf8.DecodeRune p) <= Z.of_nat (length p).
Proof.
  intros Hp. destruct p as [|p0 rest]; [congruence|].
  unfold utf8.DecodeRune, utf8.at_. cbn [nth].
  remember (Z.of_nat (length (p0 :: rest))) as n eqn:Hn.
  assert (1 <= n) by (subst n; cbn [length]; lia).
  destruct (n <? 1) eqn:E0; [lia|].
  first_split (byteZ p0); rewrite Hfirst; cbn - [Z.of_nat nth byteZ Z.ltb];
    decode_ifs; cbn [snd]; lia.
Qed.

Lemma DecodeRune_nil : utf8.DecodeRune [] = (utf8.RuneError, 0).
Proof. reflexivity. Qed.

(** A byte below 0x80 decodes to itself, with width one. *)
Lemma DecodeRune_ascii (b : byte) (rest : list byte) :
  byteZ b < 128 -> utf8.DecodeRune (b :: rest) = (byteZ b, 1).
Proof.
  intros Hb. unfold utf8.DecodeRune, utf8.at_. cbn [nth].
  destruct (Z.ltb_spec (Z.of_nat (length (b :: rest))) 1) as [E0|E0];
    [cbn [length] in E0; lia|].
  first_split (byteZ b); try lia. rewrite Hfirst. cbn.
  rewrite Z.lor_0_r, Z.land_m1_r. reflexivity.
Qed.

Lemma land_low_bits (x : Z) (k : Z) : 0 <= k -> Z.land x (2 ^ k - 1) = x mod 2 ^ k.
Proof.
  intros Hk. rewrite <- Z.land_ones by exact Hk. f_equal.
  rewrite Z.ones_equiv. lia.
Qed.

Lemma land_63 (x : Z) : Z.land x 63 = x mod 64.
Proof. exact (land_low_bits x 6 ltac:(lia)). Qed.

Lemma land_31 (x : Z) : Z.land x 31 = x mod 32.
Proof. exact (land_low_bits x 5 ltac:(lia)). Qed.

Lemma land_15 (x : Z) : Z.land x 15 = x mod 16.
Proof. exact (land_low_bits x 4 ltac:(lia)). Qed.

Lemma land_7 (x : Z) : Z.land x 7 = x mod 8.
Proof. exact (land_low_bits x 3 ltac:(lia)). Qed.

Lemma shiftl_6 (x : Z) : Z.shiftl x 6 = x * 64.
Proof. rewrite Z.shiftl_mul_pow2 by lia. reflexivity. Qed.

Lemma shiftl_12 (x : Z) : Z.shiftl x 12 = x * 4096.
Proof. rewrite Z.shiftl_mul_pow2 by lia. reflexivity. Qed.

Lemma shiftl_18 (x : Z) : Z.shiftl x 18 = x * 262144.
Proof. rewrite Z.shiftl_mul_pow2 by lia. reflexivity. Qed.

Ltac bits_to_arith :=
  rewrite ?land_63, ?land_31, ?land_15, ?land_7, ?shiftl_6, ?shiftl_12,
    ?shiftl_18.

Ltac mod_lia := Z.to_euclidean_division_equations; lia.

Ltac nonneg :=
  lazymatch goal with
  | |- 0 <= Z.lor _ _ => apply Z.lor_nonneg; split; nonneg
  | |- _ => mod_lia
  end.

(** Adds to the context that each operand of a [Z.lor] is below the result. *)
Ltac pose_lor :=
  repeat match goal with
         | |- context [Z.lor ?a ?b] =>
             lazymatch goal with
             | _ : a <= Z.lor a b |- _ => fail
             | _ => idtac
             end;
             let Ha := fresh "Ha" in
             let Hb := fresh "Hb" in
             assert (Ha : 0 <= a) by nonneg;
             assert (Hb : 0 <= b) by nonneg;
             pose proof (lor_ge_l a b Hb);
             pose proof (lor_ge_r a b Ha)
         end.

Ltac is_numeral v :=
  lazymatch v with
  | Z0 => idtac
  | Zpos ?p => is_numeral_pos p
  | Zneg ?p => is_numeral_pos p
  end
with is_numeral_pos p :=
  lazymatch p with
  | xH => idtac
  | xO ?q => is_numeral_pos q
  | xI ?q => is_numeral_pos q
  end.

(** Evaluates the table look-ups and size computations once the entry of
    [first] is known. *)
Ltac eval_consts :=
  repeat match goal with
         | |- context [Z.land ?a ?b] =>
             is_numeral a; is_numeral b;
             let v := eval vm_compute in (Z.land a b) in
             change (Z.land a b) with v
         | |- context [Z.shiftr ?a ?b] =>
             is_numeral a; is_numeral b;
             let v := eval vm_compute in (Z.shiftr a b) in
             change (Z.shiftr a b) with v
         | |- context [utf8.acceptRanges ?a] =>
             is_numeral a;
             let v := eval vm_compute in (utf8.acceptRanges a) in
             change (utf8.acceptRanges a) with v
         | |- context [Z.leb ?a ?b] =>
             is_numeral a; is_numeral b;
             let v := eval vm_compute in (Z.leb a b) in
             change (Z.leb a b) with v
         end;
  cbn [fst snd].

Ltac bool_hyps :=
  repeat match goal with
         | H : (_ || _) = false |- _ => apply orb_false_iff in H; destruct H
         | H : (_ <? _) = false |- _ => apply Z.ltb_ge in H
         | H : (_ <? _) = true |- _ => apply Z.ltb_lt in H
         end.

(** A byte from 0x80 up never decodes to a rune below 0x80. *)
Lemma DecodeRune_high (b : byte) (rest : list byte) :
  128 <= byteZ b -> 128 <= fst (utf8.DecodeRune (b :: rest)).
Proof.
  intros Hb. pose proof (byteZ_range b) as Rb.
  unfold utf8.DecodeRune, utf8.at_. cbn [nth].
  destruct (Z.ltb_spec (Z.of_nat (length (b :: rest))) 1) as [E0|E0];
    [cbn [length] in E0; lia|].
  pose proof (byteZ_range (nth 0 rest x00)) as R1.
  pose proof (byteZ_range (nth 1 rest x00)) as R2.
  pose proof (byteZ_range (nth 2 rest x00)) as R3.
  first_split (byteZ b); try lia; rewrite Hfirst;
    unfold utf8.RuneError, utf8.locb, utf8.hicb, utf8.maskx, utf8.mask2,
      utf8.mask3, utf8.mask4, utf8.as_; eval_consts;
    [ change (Z.lnot (-1)) with 0; rewrite Z.land_0_r; cbn; lia
    | decode_ifs; cbn [fst]; try lia; bool_hyps; bits_to_arith; pose_lor;
      mod_lia .. ].
Qed.

(** ** The primitive operations *)

Lemma from_length (s : list byte) (p : Z) :
  0 <= p <= Z.of_nat (length s) ->
  Z.of_nat (length (from s p)) = Z.of_nat (length s) - p.
Proof. intros H. unfold from. rewrite length_skipn. lia. Qed.

Lemma from_nil_iff (s : list byte) (p : Z) :
  0 <= p -> (from s p = [] <-> Z.of_nat (length s) <= p).
Proof.
  intros Hp. unfold from. split; intros H.
  - apply (f_equal (@length byte)) in H. rewrite length_skipn in H.
    cbn in H. lia.
  - apply skipn_all2. lia.
Qed.

Lemma from_add (s : list byte) (p w : Z) :
  0 <= p -> 0 <= w -> from s (p + w) = skipn (Z.to_nat w) (from s p).
Proof.
  intros Hp Hw. unfold from. rewrite skipn_skipn. f_equal. lia.
Qed.

Lemma from_cons_next (s : list byte) (p : Z) (b : byte) (rest : list byte) :
  0 <= p -> from s p = b :: rest -> from s (p + 1) = rest.
Proof.
  intros Hp H. rewrite from_add by lia. rewrite H. reflexivity.
Qed.

Lemma from_0 (s : list byte) : from s 0 = s.
Proof. reflexivity. Qed.

Lemma slice_from (s : list byte) (lo hi : Z) :
  slice s lo hi = firstn (Z.to_nat (hi - lo)) (from s lo).
Proof. reflexivity. Qed.

Lemma slice_full (s : list byte) : slice s 0 (Z.of_nat (length s)) = s.
Proof.
  unfold slice. cbn [Z.to_nat skipn]. rewrite Z.sub_0_r, Nat2Z.id.
  apply firstn_all.
Qed.

Lemma slice_empty (s : list byte) (p : Z) : slice s p p = [].
Proof. unfold slice. rewrite Z.sub_diag. reflexivity. Qed.

(** [next] does not read the [width] field. *)
Lemma next_set_width (l : lexer) (w : Z) : next (set_width l w) = next l.
Proof. destruct l; reflexivity. Qed.

Lemma next_at_end (l : lexer) :
  len l <= pos l -> next l = (eof, set_width l 0).
Proof.
  intros H. unfold next. destruct (Z.leb_spec (len l) (pos l)); [reflexivity|lia].
Qed.

Lemma next_inside (l : lexer) :
  pos l < len l ->
  next l =
    (fst (utf8.DecodeRune (from (input l) (pos l))),
     set_pos (set_width l (snd (utf8.DecodeRune (from (input l) (pos l)))))
       (pos l + snd (utf8.DecodeRune (from (input l) (pos l))))).
Proof.
  intros H. unfold next. destruct (Z.leb_spec (len l) (pos l)); [lia|].
  destruct (utf8.DecodeRune _); reflexivity.
Qed.

(** What [next] leaves alone. *)
Lemma next_frame (l : lexer) :
  input (snd (next l)) = input l /\
  start (snd (next l)) = start l /\
  items (snd (next l)) = items l.
Proof.
  unfold next. destruct (len l <=? pos l); [destruct l; cbn; auto|].
  destruct (utf8.DecodeRune _); destruct l; cbn; auto.
Qed.

(** Inside the input [next] returns a rune, never [eof], and advances by the
    width it records, which stays within the input. *)
Lemma next_advance (l : lexer) :
  0 <= pos l < len l ->
  0 <= fst (next l) /\
  1 <= width (snd (next l)) /\
  pos (snd (next l)) = pos l + width (snd (next l)) /\
  pos (snd (next l)) <= len l.
Proof.
  intros H. rewrite next_inside by lia. cbn [fst snd].
  assert (Hne : from (input l) (pos l) <> []).
  { intros E. apply from_nil_iff in E; unfold len in *; lia. }
  pose proof (DecodeRune_width _ Hne) as Hw.
  rewrite from_length in Hw by (unfold len in *; lia).
  destruct (from (input l) (pos l)) as [|b rest] eqn:Es; [congruence|].
  assert (0 <= fst (utf8.DecodeRune (b :: rest))).
  { destruct (Z.lt_ge_cases (byteZ b) 128) as [Hb|Hb].
    - rewrite DecodeRune_ascii by exact Hb. cbn. apply byteZ_range.
    - pose proof (DecodeRune_high b rest Hb). lia. }
  destruct l; cbn in *; unfold len in *; cbn in *. lia.
Qed.

(** [backup] right after [next] restores the position. *)
Lemma backup_next (l : lexer) :
  backup (snd (next l)) = set_width l (width (snd (next l))).
Proof.
  unfold next. destruct (len l <=? pos l).
  - destruct l; unfold backup; cbn. rewrite Z.sub_0_r. reflexivity.
  - destruct (utf8.DecodeRune _) as [r w]. destruct l; unfold backup; cbn.
    rewrite Z.add_simpl_r. reflexivity.
Qed.

Lemma peek_spec (l : lexer) :
  peek l = (fst (next l), set_width l (width (snd (next l)))).
Proof.
  unfold peek. rewrite <- backup_next. destruct (next l); reflexivity.
Qed.

(** Reading a byte below 0x80. *)
Lemma next_ascii (l : lexer) (b : byte) (rest : list byte) :
  0 <= pos l ->
  from (input l) (pos l) = b :: rest ->
  byteZ b < 128 ->
  next l = (byteZ b, set_pos (set_width l 1) (pos l + 1)).
Proof.
  intros Hp Hs Hb.
  assert (pos l < len l).
  { destruct (Z.lt_ge_cases (pos l) (len l)); [assumption|].
    assert (from (input l) (pos l) = []) by (apply from_nil_iff; assumption).
    congruence. }
  rewrite next_inside by assumption. rewrite Hs, DecodeRune_ascii by exact Hb.
  reflexivity.
Qed.

(** Reading a byte from 0x80 up yields a rune from 0x80 up. *)
Lemma next_high (l : lexer) (b : byte) (rest : list byte) :
  0 <= pos l ->
  from (input l) (pos l) = b :: rest ->
  128 <= byteZ b ->
  128 <= fst (next l).
Proof.
  intros Hp Hs Hb.
  assert (pos l < len l).
  { destruct (Z.lt_ge_cases (pos l) (len l)); [assumption|].
    assert (from (input l) (pos l) = []) by (apply from_nil_iff; assumption).
    congruence. }
  rewrite next_inside by assumption. rewrite Hs. cbn [fst].
  apply DecodeRune_high. exact Hb.
Qed.

(** ** [consumeCRLF] *)

Lemma consumeCRLF_unfold (l : lexer) :
  consumeCRLF l =
    let a := if fst (next l) =? r_CR then (true, snd (next l))
             else (false, set_width l (width (snd (next l)))) in
    if fst (next (snd a)) =? r_LF then (true, snd (next (snd a)))
    else (fst a, set_width (snd a) (width (snd (next (snd a))))).
Proof.
  unfold consumeCRLF. cbn [fold_left].
  destruct (next l) as [r1 l1] eqn:E1.
  assert (B1 : backup l1 = set_width l (width l1)).
  { pose proof (backup_next l) as B. rewrite E1 in B. exact B. }
  cbn [fst snd]. destruct (r1 =? r_CR); cbn [negb fst snd].
  - destruct (next l1) as [r2 l2] eqn:E2.
    assert (B2 : backup l2 = set_width l1 (width l2)).
    { pose proof (backup_next l1) as B. rewrite E2 in B. exact B. }
    cbn [fst snd]. destruct (r2 =? r_LF); cbn [negb]; [reflexivity|].
    rewrite B2. reflexivity.
  - rewrite B1.
    destruct (next (set_width l (width l1))) as [r2 l2] eqn:E2.
    assert (B2 : backup l2 = set_width (set_width l (width l1)) (width l2)).
    { pose proof (backup_next (set_width l (width l1))) as B.
      rewrite E2 in B. exact B. }
    cbn [fst snd]. destruct (r2 =? r_LF); cbn [negb]; [reflexivity|].
    rewrite B2. reflexivity.
Qed.

(** The first rune at a position, in terms of the byte there: a byte below
    0x80 is read as itself, anything else is not a rune below 0x80. *)
Lemma next_rune_cases (l : lexer) :
  0 <= pos l ->
  match from (input l) (pos l) with
  | [] => next l = (eof, set_width l 0)
  | b :: rest =>
      (byteZ b < 128 /\ next l = (byteZ b, set_pos (set_width l 1) (pos l + 1)))
      \/ (128 <= byteZ b /\ 128 <= fst (next l))
  end.
Proof.
  intros Hp. destruct (from (input l) (pos l)) as [|b rest] eqn:Es.
  - apply next_at_end. apply from_nil_iff in Es; [exact Es|exact Hp].
  - destruct (Z.lt_ge_cases (byteZ b) 128) as [Hb|Hb].
    + left. split; [exact Hb|]. eapply next_ascii; eassumption.
    + right. split; [exact Hb|]. eapply next_high; eassumption.
Qed.

(** [consumeCRLF] consumes an optional carriage return followed by an
    optional line feed, and nothing else. *)
Lemma consumeCRLF_spec (l : lexer) :
  0 <= pos l ->
  exists w,
    consumeCRLF l =
      (0 <? lineBreakLen (from (input l) (pos l)),
       set_pos (set_width l w) (pos l + lineBreakLen (from (input l) (pos l)))).
Proof.
  intros Hp. rewrite consumeCRLF_unfold.
  pose proof (next_rune_cases l Hp) as N1.
  destruct (from (input l) (pos l)) as [|b rest] eqn:Es.
  - rewrite N1. cbn [fst snd]. change (eof =? r_CR) with false. cbn [fst snd].
    rewrite !next_set_width, N1. cbn [fst snd].
    change (eof =? r_LF) with false. cbn [lineBreakLen].
    exists 0. destruct l; cbn. rewrite Z.add_0_r. reflexivity.
  - destruct N1 as [[Hb N1]|[Hb N1]].
    + rewrite N1. cbn [fst snd lineBreakLen].
      destruct (Z.eqb_spec (byteZ b) r_CR) as [Hcr|Hcr]; cbn [fst snd].
      * (* a carriage return: look at the byte after it *)
        set (l1 := set_pos (set_width l 1) (pos l + 1)).
        assert (Hp1 : 0 <= pos l1) by (subst l1; destruct l; cbn in *; lia).
        pose proof (next_rune_cases l1 Hp1) as N2.
        assert (Es1 : from (input l1) (pos l1) = rest).
        { subst l1; destruct l; cbn in *. eapply from_cons_next; eassumption. }
        rewrite Es1 in N2. destruct rest as [|c rest'].
        -- rewrite N2. cbn [fst snd]. change (eof =? r_LF) with false.
           exists 0. subst l1; destruct l; reflexivity.
        -- destruct N2 as [[Hc N2]|[Hc N2]].
           ++ rewrite N2. cbn [fst snd].
              destruct (Z.eqb_spec (byteZ c) r_LF); cbn.
              ** exists 1. subst l1; destruct l; cbn.
                 rewrite <- Z.add_assoc. reflexivity.
              ** exists 1. subst l1; destruct l; reflexivity.
           ++ destruct (Z.eqb_spec (fst (next l1)) r_LF) as [E|E];
                [unfold r_LF in E; lia|].
              destruct (Z.eqb_spec (byteZ c) r_LF) as [E'|E'];
                [unfold r_LF in E'; lia|].
              exists (width (snd (next l1))).
              subst l1; destruct l; reflexivity.
      * rewrite !next_set_width, N1. cbn [fst snd].
        destruct (Z.eqb_spec (byteZ b) r_LF); cbn.
        -- exists 1. destruct l; reflexivity.
        -- exists 1. destruct l; cbn. rewrite Z.add_0_r. reflexivity.
    + cbn [lineBreakLen].
      destruct (Z.eqb_spec (fst (next l)) r_CR) as [E|E];
        [unfold r_CR in E; lia|].
      destruct (Z.eqb_spec (byteZ b) r_CR) as [E1|E1];
        [unfold r_CR in E1; lia|].
      destruct (Z.eqb_spec (byteZ b) r_LF) as [E2|E2];
        [unfold r_LF in E2; lia|].
      cbn [fst snd]. rewrite !next_set_width.
      destruct (Z.eqb_spec (fst (next l)) r_LF) as [E3|E3];
        [unfold r_LF in E3; lia|].
      exists (width (snd (next l))). destruct l; cbn.
      rewrite Z.add_0_r. reflexivity.
Qed.

Lemma lineBreakLen_bound (s : list byte) :
  0 <= lineBreakLen s <= Z.of_nat (length s).
Proof.
  destruct s as [|b [|c rest]]; cbn [lineBreakLen length];
    repeat match goal with
           | |- context [if ?c then _ else _] => destruct c
           end; lia.
Qed.

(** ** Preservation of the state invariant by the primitives *)

Lemma next_good (l : lexer) :
  good l ->
  good (snd (next l)) /\
  pos l <= pos (snd (next l)) /\
  (fst (next l) <> eof -> pos l < pos (snd (next l))) /\
  (fst (next l) = eof -> len l <= pos l).
Proof.
  intros (Hs & Hsp & Hpl). unfold good.
  destruct (Z.lt_ge_cases (pos l) (len l)) as [Hin|Hend].
  - pose proof (next_advance l ltac:(lia)) as (Hr & Hw & Hp & Hle).
    pose proof (next_frame l) as (Fi & Fs & _).
    unfold len in *. rewrite Fi, Fs. unfold eof. repeat split; lia.
  - rewrite next_at_end by exact Hend. destruct l; cbn in *.
    unfold len in *; cbn in *. repeat split; (lia || congruence).
Qed.

Lemma set_width_good (l : lexer) (w : Z) : good l -> good (set_width l w).
Proof. destruct l; exact (fun H => H). Qed.

Lemma emit_good (t : itemType) (l : lexer) : good l -> good (emit t l).
Proof. destruct l; unfold good, len; cbn. lia. Qed.

Lemma ignore_good (l : lexer) : good l -> good (ignore l).
Proof. destruct l; unfold good, len; cbn. lia. Qed.

Lemma consumeCRLF_good (l : lexer) :
  good l ->
  good (snd (consumeCRLF l)) /\
  input (snd (consumeCRLF l)) = input l /\
  start (snd (consumeCRLF l)) = start l /\
  items (snd (consumeCRLF l)) = items l /\
  pos l <= pos (snd (consumeCRLF l)).
Proof.
  intros (Hs & Hsp & Hpl).
  destruct (consumeCRLF_spec l ltac:(lia)) as [w ->].
  pose proof (lineBreakLen_bound (from (input l) (pos l))) as B.
  rewrite from_length in B by (unfold len in *; lia).
  destruct l; unfold good, len in *; cbn in *. repeat split; lia.
Qed.

Lemma HasPrefix_length (s prefix : list byte) :
  HasPrefix s prefix = true -> (length prefix <= length s)%nat.
Proof.
  unfold HasPrefix. intros H. apply andb_true_iff in H. destruct H as [H _].
  apply Nat.leb_le. exact H.
Qed.

(** The advance past a closing fence that [hasPrefix] has just seen. *)
Lemma advance_good (fence : list byte) (l : lexer) :
  good l ->
  hasPrefix fence l = true ->
  good (set_pos l (pos l + Z.of_nat (length fence))).
Proof.
  intros (Hs & Hsp & Hpl) H. apply HasPrefix_length in H.
  apply Nat2Z.inj_le in H. rewrite from_length in H by (unfold len in *; lia).
  destruct l; unfold good, len in *; cbn in *. lia.
Qed.

(** ** Totality of the loops *)

Lemma lexMarkdown_spec (fuel : nat) (l : lexer) :
  good l ->
  len l - pos l < Z.of_nat fuel ->
  lexMarkdown fuel l =
    Some (emit itemMarkdown
            (mkLexer (input l) (start l) (len l) 0 (items l)),
          Some LexDone).
Proof.
  revert l. induction fuel as [|fuel IH]; intros l G Hf.
  - destruct G as (? & ? & ?). lia.
  - cbn [lexMarkdown].
    pose proof (next_good l G) as (G1 & Hmono & Hadv & Heof).
    pose proof (next_frame l) as (Fi & Fs & Fit).
    destruct (next l) as [r l1] eqn:E. cbn [fst snd] in *.
    destruct (Z.eqb_spec r eof) as [Hr|Hr].
    + specialize (Heof Hr). rewrite next_at_end in E by exact Heof.
      injection E as _ <-. destruct G as (? & ? & ?).
      replace (len l) with (pos l) by lia. destruct l; reflexivity.
    + specialize (Hadv Hr).
      rewrite IH; [|exact G1|unfold len in *; rewrite Fi; lia].
      unfold len. rewrite Fi, Fs, Fit. reflexivity.
Qed.

Lemma openFence_good (delim : rune) (n : nat) (l : lexer) :
  good l ->
  good (snd (openFence delim n l)) /\
  input (snd (openFence delim n l)) = input l /\
  start (snd (openFence delim n l)) = start l /\
  items (snd (openFence delim n l)) = items l.
Proof.
  revert l. induction n as [|n IH]; intros l G; cbn [openFence].
  - cbn. auto.
  - pose proof (next_good l G) as (G1 & _).
    pose proof (next_frame l) as (Fi & Fs & Fit).
    destruct (next l) as [r l1]. cbn [fst snd] in *.
    destruct (negb (r =? delim)); cbn [snd]; [auto|].
    destruct (IH l1 G1) as (A & B & C & D).
    rewrite B, C, D, Fi, Fs, Fit. auto.
Qed.
Lemma finished_error (l : lexer) (msg : list byte) :
  finished (send l (mkItem itemError msg)).
Proof. exists (items l), (mkItem itemError msg). cbn. auto. Qed.

Lemma finished_endsRun (l : lexer) : finished l -> endsRun (items l).
Proof.
  intros (pre & i & E & H). exists pre, i. split; [exact E|].
  destruct H as [H|[H _]]; auto.
Qed.

Lemma closeFence_total (fence : list byte) (t : itemType) (msg : string)
  (fuel : nat) (l : lexer) :
  length fence = 3%nat ->
  good l ->
  len l - pos l < Z.of_nat fuel ->
  exists l' st,
    closeFence fence t msg fuel l = Some (l', st) /\
    input l' = input l /\
    match st with
    | None => finished l'
    | Some s => good l' /\ s = LexMarkdown
    end.
Proof.
  intros Hfence. revert l. induction fuel as [|fuel IH]; intros l G Hf.
  - destruct G as (? & ? & ?). lia.
  - cbn [closeFence].
    pose proof (next_good l G) as (G1 & Hmono & Hadv & Heof).
    pose proof (next_frame l) as (Fi & Fs & Fit).
    destruct (next l) as [r l1] eqn:E. cbn [fst snd] in *.
    destruct (Z.eqb_spec r eof) as [Hr|Hr].
    + eexists _, _. split; [reflexivity|]. cbn. split; [exact Fi|].
      apply finished_error.
    + specialize (Hadv Hr).
      destruct (isEndOfLine r && hasPrefix fence l1) eqn:Ec.
      * apply andb_true_iff in Ec. destruct Ec as [_ Hpre].
        assert (G2 : good (emit t l1)) by (apply emit_good; exact G1).
        assert (Hpre2 : hasPrefix fence (emit t l1) = true)
          by (destruct l1; exact Hpre).
        pose proof (advance_good fence _ G2 Hpre2) as G3.
        rewrite Hfence in G3. change (Z.of_nat 3) with 3 in G3.
        pose proof (consumeCRLF_good _ G3) as (G4 & Ci & _).
        destruct (consumeCRLF _) as [c l4]. cbn [snd] in *.
        eexists _, _. split; [reflexivity|]. split.
        -- destruct l4, l1; cbn in *. congruence.
        -- split; [apply ignore_good; exact G4|reflexivity].
      * destruct (IH l1 G1) as (l' & st & R & Ri & Rp).
        { unfold len in *. rewrite Fi. lia. }
        exists l', st. split; [exact R|]. split; [congruence|exact Rp].
Qed.

Lemma jsonSwitch_good (r : rune) (q : bool) (lv : Z) (l : lexer) :
  good l ->
  good (snd (jsonSwitch r q lv l)) /\
  input (snd (jsonSwitch r q lv l)) = input l /\
  start (snd (jsonSwitch r q lv l)) = start l /\
  items (snd (jsonSwitch r q lv l)) = items l /\
  pos l <= pos (snd (jsonSwitch r q lv l)).
Proof.
  intros G. unfold jsonSwitch.
  pose proof (next_good l G) as (G1 & Hmono & _).
  pose proof (next_frame l) as (Fi & Fs & Fit).
  repeat match goal with
         | |- context [if ?c =? ?d then _ else _] => destruct (c =? d)
         end; cbn [snd]; repeat split; solve [apply G | apply G1 | auto | lia].
Qed.

Lemma jsonLoop_total (fuel : nat) (q : bool) (lv : Z) (l : lexer) :
  good l ->
  len l - pos l < Z.of_nat fuel ->
  exists e,
    jsonLoop fuel q lv l = Some e /\
    match e with
    | JBreak l' =>
        good l' /\ input l' = input l /\ start l' = start l /\
        items l' = items l
    | JReturn (l', st) =>
        input l' = input l /\ st = None /\ finished l'
    end.
Proof.
  revert q lv l. induction fuel as [|fuel IH]; intros q lv l G Hf.
  - destruct G as (? & ? & ?). lia.
  - cbn [jsonLoop].
    pose proof (next_good l G) as (G1 & Hmono & Hadv & Heof).
    pose proof (next_frame l) as (Fi & Fs & Fit).
    destruct (next l) as [r l1] eqn:E. cbn [fst snd] in *.
    destruct (Z.eqb_spec r eof) as [Hr|Hr].
    + eexists. split; [reflexivity|]. cbn. repeat split; auto.
      apply finished_error.
    + specialize (Hadv Hr).
      pose proof (jsonSwitch_good r q lv l1 G1) as (G2 & Si & Ss & Sit & Sp).
      destruct (jsonSwitch r q lv l1) as [[q' lv'] l2]. cbn [snd] in *.
      destruct (lv' =? 0).
      * eexists. split; [reflexivity|]. cbn. repeat split; try apply G2; congruence.
      * destruct (IH q' lv' l2 G2) as (e & R & Re).
        { unfold len in *. rewrite Si, Fi. lia. }
        exists e. split; [exact R|].
        destruct e as [l'|[l' st]].
        -- destruct Re as (A & B & C & D). repeat split; try apply A; congruence.
        -- destruct Re as (A & B & C). repeat split; auto; congruence.
Qed.

Lemma lexStart_spec (l : lexer) :
  good l ->
  exists w s,
    lexStart l = (set_width l w, Some s) /\ (0 < rank s < rank LexStart)%nat.
Proof.
  intros G. unfold lexStart. rewrite peek_spec.
  exists (width (snd (next l))).
  repeat match goal with
         | |- context [if ?c =? ?d then _ else _] => destruct (c =? d)
         end; eexists; (split; [reflexivity|cbn; lia]).
Qed.

Lemma lexFrontmatterFence_total (delim : rune) (fence : list byte)
  (t : itemType) (invalid unclosed : string) (fuel : nat) (l : lexer) :
  length fence = 3%nat ->
  good l ->
  len l < Z.of_nat fuel ->
  exists l' st,
    lexFrontmatterFence delim fence t invalid unclosed fuel l = Some (l', st) /\
    input l' = input l /\
    match st with
    | None => finished l'
    | Some s => good l' /\ s = LexMarkdown
    end.
Proof.
  intros Hfence G Hf. unfold lexFrontmatterFence.
  pose proof (openFence_good delim 3 l G) as (G1 & Oi & Os & Oit).
  destruct (openFence delim 3 l) as [ok l1]. cbn [snd] in *.
  destruct ok; cbn [negb].
  - pose proof (consumeCRLF_good l1 G1) as (G2 & Ci & Cs & Cit & Cp).
    destruct (consumeCRLF l1) as [c l2]. cbn [snd] in *.
    assert (G3 : good (ignore l2)) by (apply ignore_good; exact G2).
    destruct (closeFence_total fence t unclosed fuel (ignore l2) Hfence G3)
      as (l' & st & R & Ri & Rp).
    { destruct G3 as (? & ? & ?). unfold len in *.
      replace (input (ignore l2)) with (input l) by (destruct l2; cbn in *; congruence).
      lia. }
    exists l', st. split; [exact R|]. split; [|exact Rp].
    rewrite Ri. destruct l2; cbn in *. congruence.
  - eexists _, _. split; [reflexivity|]. cbn. split; [exact Oi|].
    apply finished_error.
Qed.

Lemma lexFrontmatterJSON_total (fuel : nat) (l : lexer) :
  good l ->
  len l < Z.of_nat fuel ->
  exists l' st,
    lexFrontmatterJSON fuel l = Some (l', st) /\
    input l' = input l /\
    match st with
    | None => finished l'
    | Some s => good l' /\ s = LexMarkdown
    end.
Proof.
  intros G Hf. unfold lexFrontmatterJSON.
  destruct (jsonLoop_total fuel false 0 l G) as (e & R & Re).
  { destruct G as (? & ? & ?). lia. }
  rewrite R. destruct e as [l1|[l1 st]].
  - destruct Re as (G1 & Ji & Js & Jit).
    pose proof (consumeCRLF_good l1 G1) as (G2 & Ci & Cs & Cit & Cp).
    destruct (consumeCRLF l1) as [c l2]. cbn [snd] in *.
    eexists _, _. split; [reflexivity|]. split.
    + destruct l2; cbn in *. congruence.
    + split; [apply emit_good; exact G2|reflexivity].
  - destruct Re as (A & -> & C). eexists _, _. split; [reflexivity|].
    split; assumption.
Qed.

(** Every state function returns, given fuel beyond the length of the input:
    it ends the run with an error or the end marker as last item, or hands a
    lexer that satisfies the invariant to a state of lower rank.  [lexDone]
    is only entered at the end of the input. *)
Lemma call_total (fuel : nat) (s : stateFunc) (l : lexer) :
  good l ->
  len l < Z.of_nat fuel ->
  (s = LexDone -> start l = len l) ->
  exists l' st,
    call fuel s l = Some (l', st) /\
    input l' = input l /\
    match st with
    | None => finished l'
    | Some s' =>
        good l' /\ (rank s' < rank s)%nat /\ (s' = LexDone -> start l' = len l')
    end.
Proof.
  intros G Hf Hdone. destruct s; cbn [call].
  - destruct (lexStart_spec l G) as (w & s & -> & Hr).
    eexists _, _. split; [reflexivity|]. split; [destruct l; reflexivity|].
    split; [apply set_width_good; exact G|]. split; [lia|].
    intros ->. cbn in Hr. lia.
  - destruct (lexFrontmatterFence_total r_plus fenceTOML itemFrontmatterTOML
                "invalid TOML delimiter"
                "EOF looking for end TOML front matter delimiter"
                fuel l eq_refl G Hf) as (l' & st & R & Ri & Rp).
    exists l', st. split; [exact R|]. split; [exact Ri|].
    destruct st as [s'|]; [|exact Rp]. destruct Rp as (? & ->). cbn.
    split; [assumption|]. split; [lia|discriminate].
  - destruct (lexFrontmatterFence_total r_minus fenceYAML itemFrontmatterYAML
                "invalid YAML delimiter"
                "EOF looking for end YAML front matter delimiter"
                fuel l eq_refl G Hf) as (l' & st & R & Ri & Rp).
    exists l', st. split; [exact R|]. split; [exact Ri|].
    destruct st as [s'|]; [|exact Rp]. destruct Rp as (? & ->). cbn.
    split; [assumption|]. split; [lia|discriminate].
  - destruct (lexFrontmatterJSON_total fuel l G Hf) as (l' & st & R & Ri & Rp).
    exists l', st. split; [exact R|]. split; [exact Ri|].
    destruct st as [s'|]; [|exact Rp]. destruct Rp as (? & ->). cbn.
    split; [assumption|]. split; [lia|discriminate].
  - rewrite lexMarkdown_spec; [|exact G|destruct G as (? & ? & ?); lia].
    eexists _, _. split; [reflexivity|]. split; [reflexivity|].
    destruct G as (? & ? & ?).
    split; [unfold good, len in *; cbn; lia|]. split; [cbn; lia|].
    intros _. reflexivity.
  - eexists _, _. split; [reflexivity|]. split; [destruct l; reflexivity|].
    unfold lexDone, emit, send, set_start, finished. cbn.
    eexists _, _. split; [reflexivity|]. cbn. right. split; [reflexivity|].
    destruct G as (? & ? & ?). specialize (Hdone eq_refl). unfold len in *.
    cbn. lia.
Qed.

Lemma run_total (steps fuel : nat) (s : stateFunc) (l : lexer) :
  good l ->
  len l < Z.of_nat fuel ->
  (s = LexDone -> start l = len l) ->
  (rank s < steps)%nat ->
  exists l',
    run steps fuel (Some s) l = Some l' /\
    input l' = input l /\ finished l'.
Proof.
  revert s l. induction steps as [|steps IH]; intros s l G Hf Hd Hr; [lia|].
  cbn [run].
  destruct (call_total fuel s l G Hf Hd) as (l1 & st & R & Ri & Rp).
  rewrite R. destruct st as [s'|].
  - destruct Rp as (G1 & Hlt & Hd1).
    destruct (IH s' l1 G1) as (l' & R' & Ri' & Re').
    + unfold len in *. rewrite Ri. exact Hf.
    + exact Hd1.
    + lia.
    + exists l'. split; [exact R'|]. split; [congruence|exact Re'].
  - exists l1. destruct steps; cbn [run]; auto.
Qed.

Lemma newLexer_good (inp : list byte) : good (newLexer inp).
Proof. unfold good, len; cbn. lia. Qed.

Lemma lex_total (inp : list byte) :
  exists l, lex inp = Some l /\ input l = inp /\ finished l.
Proof.
  unfold lex.
  destruct (run_total 4 (S (length inp)) LexStart (newLexer inp))
    as (l & R & Ri & Re).
  - apply newLexer_good.
  - unfold len; cbn [input newLexer]. lia.
  - discriminate.
  - cbn; lia.
  - exists l. auto.
Qed.

(** ** The worked documents *)

(** C1, as the code behaves: on the TOML document the scanner emits the
    TOML-frontmatter item, the Content item [BODY] and the end marker, and
    nothing else; the value of the frontmatter item is [A] followed by the
    line feed that precedes the closing fence. *)
Theorem toml_document_items :
  scan docTOML =
    Some [mkItem itemFrontmatterTOML (bytes "A" ++ [LF]);
          mkItem itemMarkdown (bytes "BODY");
          mkItem itemEOF []].
Proof. vm_compute. reflexivity. Qed.

(** C1, as stated, fails: the output does not start with a TOML-frontmatter
    item whose value is exactly [A]. *)
Lemma toml_document_value_not_stripped :
  ~ exists rest,
      scan docTOML = Some (mkItem itemFrontmatterTOML (bytes "A") :: rest).
Proof. intros [rest H]. vm_compute in H. discriminate H. Qed.

(** C2, as the code behaves: on the JSON document the scanner emits one
    JSON-frontmatter item, the Content item [BODY] and the end marker; the
    value of the frontmatter item is the balanced-brace span followed by the
    line feed that [consumeCRLF] consumed before the [emit]. *)
Theorem json_document_items :
  scan docJSON =
    Some [mkItem itemFrontmatterJSON (objJSON ++ [LF]);
          mkItem itemMarkdown (bytes "BODY");
          mkItem itemEOF []].
Proof. vm_compute. reflexivity. Qed.

(** C2, as stated, fails: the output does not start with a JSON-frontmatter
    item whose value is the object without the trailing line break. *)
Lemma json_document_value_keeps_line_break :
  ~ exists rest,
      scan docJSON = Some (mkItem itemFrontmatterJSON objJSON :: rest).
Proof. intros [rest H]. vm_compute in H. discriminate H. Qed.

(** C5: on [+++], line feed, [A] the scanner emits exactly one item, the
    error with the message of the missing closing TOML fence; no end marker
    follows it. *)
Theorem unclosed_toml_single_error :
  scan docUnclosedTOML = Some [mkItem itemError (bytes unclosedTOML)].
Proof. vm_compute. reflexivity. Qed.

(** ** Termination *)

(** More fuel never changes a result. *)
Lemma closeFence_fuel (fence : list byte) (t : itemType) (msg : string)
  (fuel k : nat) (l : lexer) (r : lexer * option stateFunc) :
  closeFence fence t msg fuel l = Some r ->
  closeFence fence t msg (fuel + k) l = Some r.
Proof.
  revert l. induction fuel as [|fuel IH]; intros l H; [discriminate H|].
  cbn [closeFence Nat.add] in *. destruct (next l) as [c l1].
  destruct (c =? eof); [exact H|].
  destruct (isEndOfLine c && hasPrefix fence l1); [exact H|].
  apply IH. exact H.
Qed.

Lemma jsonLoop_fuel (fuel k : nat) (q : bool) (lv : Z) (l : lexer)
  (e : jsonExit) :
  jsonLoop fuel q lv l = Some e -> jsonLoop (fuel + k) q lv l = Some e.
Proof.
  revert q lv l. induction fuel as [|fuel IH]; intros q lv l H;
    [discriminate H|].
  cbn [jsonLoop Nat.add] in *. destruct (next l) as [c l1].
  destruct (c =? eof); [exact H|].
  destruct (jsonSwitch c q lv l1) as [[q' lv'] l2].
  destruct (lv' =? 0); [exact H|]. apply IH. exact H.
Qed.

Lemma lexMarkdown_fuel (fuel k : nat) (l : lexer)
  (r : lexer * option stateFunc) :
  lexMarkdown fuel l = Some r -> lexMarkdown (fuel + k) l = Some r.
Proof.
  revert l. induction fuel as [|fuel IH]; intros l H; [discriminate H|].
  cbn [lexMarkdown Nat.add] in *. destruct (next l) as [c l1].
  destruct (c =? eof); [exact H|]. apply IH. exact H.
Qed.

Lemma call_fuel (fuel k : nat) (s : stateFunc) (l : lexer)
  (r : lexer * option stateFunc) :
  call fuel s l = Some r -> call (fuel + k) s l = Some r.
Proof.
  destruct s; cbn [call]; intros H; try exact H.
  - unfold lexFrontmatterTOML, lexFrontmatterFence in *.
    destruct (openFence r_plus 3 l) as [ok l1].
    destruct (negb ok); [exact H|].
    destruct (consumeCRLF l1) as [c l2]. apply closeFence_fuel. exact H.
  - unfold lexFrontmatterYAML, lexFrontmatterFence in *.
    destruct (openFence r_minus 3 l) as [ok l1].
    destruct (negb ok); [exact H|].
    destruct (consumeCRLF l1) as [c l2]. apply closeFence_fuel. exact H.
  - unfold lexFrontmatterJSON in *.
    destruct (jsonLoop fuel false 0 l) as [e|] eqn:E; [|discriminate H].
    rewrite (jsonLoop_fuel _ k _ _ _ _ E). exact H.
  - apply lexMarkdown_fuel. exact H.
Qed.

Lemma run_fuel (steps a fuel k : nat) (st : option stateFunc) (l l' : lexer) :
  run steps fuel st l = Some l' ->
  run (steps + a) (fuel + k) st l = Some l'.
Proof.
  revert st l. induction steps as [|steps IH]; intros st l H.
  - destruct st; [discriminate H|]. destruct a; exact H.
  - destruct st as [s|]; [|exact H]. cbn [run Nat.add] in *.
    destruct (call fuel s l) as [[l1 st1]|] eqn:E; [|discriminate H].
    rewrite (call_fuel _ k _ _ _ E). apply IH. exact H.
Qed.

(** C7: for every input the run terminates: the fuel [lex] hands out is
    never exhausted, and the finite sequence of items ends with the end
    marker or with an error item.  More steps or more fuel give the same
    items; and every call of [next] that does not report the end of the
    input strictly advances the read position, which is why the loops, which
    all start with [next] and leave on [eof], come to an end. *)
Theorem scan_terminates (inp : list byte) :
  (exists its, scan inp = Some its /\ endsRun its) /\
  (forall a k,
      option_map items
        (run (4 + a) (S (length inp) + k) (Some LexStart) (newLexer inp)) =
      scan inp) /\
  (forall l, good l -> fst (next l) <> eof -> pos l < pos (snd (next l))).
Proof.
  destruct (lex_total inp) as (l & R & _ & F).
  split; [|split].
  - exists (items l). unfold scan. rewrite R. split; [reflexivity|].
    apply finished_endsRun. exact F.
  - intros a k. unfold scan. rewrite R. unfold lex in R.
    rewrite (run_fuel _ a _ k _ _ _ R). reflexivity.
  - intros l0 G. apply (next_good l0 G).
Qed.

(** ** Documents without frontmatter *)

Lemma byteZ_neq (a b : byte) : a <> b -> byteZ a <> byteZ b.
Proof. intros H E. apply H. apply byteZ_inj. exact E. Qed.

(** C4: an input, empty or not, whose first character is none of [+], [-]
    and the left brace yields exactly the Content item holding the entire
    input, followed by the end marker. *)
Theorem no_frontmatter_single_content (inp : list byte) :
  (forall b rest, inp = b :: rest ->
                  b <> b_plus /\ b <> b_minus /\ b <> b_lbrace) ->
  scan inp = Some [mkItem itemMarkdown inp; mkItem itemEOF []].
Proof.
  intros Hfirst. unfold scan, lex. cbn [run call].
  assert (Hstart : exists w,
             lexStart (newLexer inp) = (set_width (newLexer inp) w, Some LexMarkdown)).
  { unfold lexStart. rewrite peek_spec.
    exists (width (snd (next (newLexer inp)))).
    pose proof (next_rune_cases (newLexer inp) ltac:(cbn; lia)) as N.
    cbn [input pos newLexer] in N. rewrite from_0 in N.
    assert (Hr : fst (next (newLexer inp)) <> r_plus /\
                 fst (next (newLexer inp)) <> r_minus /\
                 fst (next (newLexer inp)) <> r_lbrace).
    { destruct inp as [|b rest].
      - rewrite N. cbn. unfold eof, r_plus, r_minus, r_lbrace. lia.
      - destruct (Hfirst b rest eq_refl) as (H1 & H2 & H3).
        apply byteZ_neq in H1, H2, H3.
        destruct N as [[_ N]|[_ N]].
        + rewrite N. cbn [fst]. auto.
        + unfold r_plus, r_minus, r_lbrace. lia. }
    destruct Hr as (H1 & H2 & H3).
    apply Z.eqb_neq in H1, H2, H3. rewrite H1, H2, H3. reflexivity. }
  destruct Hstart as [w ->]. cbn [run call].
  rewrite lexMarkdown_spec.
  - cbn [run call lexDone option_map items emit send set_start set_width
           input start pos newLexer app].
    rewrite slice_empty. change (len (set_width (newLexer inp) w))
      with (Z.of_nat (length inp)).
    rewrite slice_full. reflexivity.
  - apply set_width_good, newLexer_good.
  - unfold len. cbn. lia.
Qed.

(** C4 at the document [hi]. *)
Lemma no_frontmatter_single_content_witness :
  scan (bytes "hi") = Some [mkItem itemMarkdown (bytes "hi"); mkItem itemEOF []].
Proof.
  apply no_frontmatter_single_content.
  intros b rest H. injection H as <- _.
  repeat split; discriminate.
Defined.

(** ** Line breaks *)

(** C9, as stated, fails on a line feed followed by a carriage return: only
    the line feed is consumed, and the carriage return is the next byte to be
    read. *)
Lemma consumeCRLF_lf_cr_consumes_one :
  pos (snd (consumeCRLF (newLexer [LF; CR]))) = 1 /\
  pos (snd (consumeCRLF (newLexer [LF; CR]))) <> 2 /\
  from [LF; CR] (pos (snd (consumeCRLF (newLexer [LF; CR])))) = [CR].
Proof. vm_compute. repeat split. discriminate. Qed.

(** C9, as the code behaves: [consumeCRLF] tries a carriage return first and
    a line feed second.  It consumes a carriage return followed by a line
    feed (two bytes), a lone carriage return, or a line feed (one byte; a
    carriage return after the line feed is left in place), and returns true;
    when the next byte is no line-break character, or the input is at its
    end, it consumes nothing and returns false.  The input, the start of the
    pending span and the items sent are never touched. *)
Theorem consumeCRLF_line_break (l : lexer) :
  0 <= pos l ->
  let s := from (input l) (pos l) in
  let r := consumeCRLF l in
  (input (snd r) = input l /\ start (snd r) = start l /\
   items (snd r) = items l) /\
  (forall rest, s = CR :: LF :: rest ->
                fst r = true /\ pos (snd r) = pos l + 2) /\
  (forall rest, s = CR :: rest -> (forall rest', rest <> LF :: rest') ->
                fst r = true /\ pos (snd r) = pos l + 1) /\
  (forall rest, s = LF :: rest ->
                fst r = true /\ pos (snd r) = pos l + 1) /\
  (s = [] \/ (exists b rest, s = b :: rest /\ b <> CR /\ b <> LF) ->
   fst r = false /\ pos (snd r) = pos l).
Proof.
  intros Hp s r. subst s r.
  destruct (consumeCRLF_spec l Hp) as [w ->]. cbn [fst snd].
  split; [destruct l; cbn; auto|].
  split; [|split; [|split]].
  - intros rest ->. cbn. destruct l; cbn. auto.
  - intros rest -> Hrest. destruct rest as [|c rest'].
    + cbn. destruct l; cbn. auto.
    + assert (Hc : byteZ c <> r_LF).
      { intros E. apply (Hrest rest'). f_equal.
        apply byteZ_inj. exact E. }
      apply Z.eqb_neq in Hc. cbn [lineBreakLen].
      change (byteZ CR =? r_CR) with true. cbn iota. rewrite Hc.
      destruct l; cbn. auto.
  - intros rest ->. cbn. destruct l; cbn. auto.
  - intros [->|(b & rest & -> & Hcr & Hlf)].
    + cbn. destruct l; cbn. rewrite Z.add_0_r. auto.
    + apply byteZ_neq in Hcr, Hlf.
      apply Z.eqb_neq in Hcr, Hlf. cbn [lineBreakLen].
      change (byteZ CR) with r_CR in Hcr. change (byteZ LF) with r_LF in Hlf.
      rewrite Hcr, Hlf. destruct l; cbn. rewrite Z.add_0_r. auto.
Qed.

(** C9 at a lexer in front of a carriage return and a line feed. *)
Lemma consumeCRLF_line_break_witness :
  fst (consumeCRLF (newLexer [CR; LF; b_plus])) = true /\
  pos (snd (consumeCRLF (newLexer [CR; LF; b_plus]))) = 2.
Proof.
  pose proof (consumeCRLF_line_break (newLexer [CR; LF; b_plus])) as H.
  cbv zeta in H.
  destruct (H ltac:(cbn; lia)) as (_ & H2 & _).
  exact (H2 [b_plus] eq_refl).
Defined.

(** ** The search for the closing fence *)

Lemma closesLater_skipn (fence s : list byte) (k : nat) :
  closesLater fence s = false -> closesLater fence (skipn k s) = false.
Proof.
  revert s. induction k as [|k IH]; intros s H; [exact H|].
  destruct s as [|e s']; [reflexivity|].
  cbn [skipn]. apply IH. cbn [closesLater] in H.
  apply orb_false_iff in H. apply H.
Qed.

Lemma slice_length (s : list byte) (lo hi : Z) :
  0 <= lo -> lo <= hi -> hi <= Z.of_nat (length s) ->
  Z.of_nat (length (slice s lo hi)) = hi - lo.
Proof.
  intros H1 H2 H3. unfold slice. rewrite length_firstn, length_skipn. lia.
Qed.

(** Reading one byte below 0x80: the rune is the byte, and the rest of the
    input is what follows it. *)
Lemma next_byte (l : lexer) (b : byte) (rest : list byte) :
  0 <= pos l ->
  from (input l) (pos l) = b :: rest ->
  byteZ b < 128 ->
  next l = (byteZ b, set_pos (set_width l 1) (pos l + 1)) /\
  from (input l) (pos l + 1) = rest.
Proof.
  intros Hp Hs Hb. split.
  - eapply next_ascii; eassumption.
  - eapply from_cons_next; eassumption.
Qed.

(** After [next], the rest of the input is a suffix of what it was. *)
Lemma next_from (l : lexer) :
  good l ->
  from (input (snd (next l))) (pos (snd (next l))) =
    skipn (Z.to_nat (pos (snd (next l)) - pos l)) (from (input l) (pos l)).
Proof.
  intros G. pose proof (next_good l G) as (_ & Hmono & _).
  pose proof (next_frame l) as (Fi & _). rewrite Fi.
  destruct G as (? & ? & ?).
  replace (pos (snd (next l))) with (pos l + (pos (snd (next l)) - pos l))
    at 1 by lia.
  apply from_add; lia.
Qed.

(** A rune that is a line-break character was read from one byte, that
    byte. *)
Lemma next_end_of_line (l : lexer) :
  good l ->
  isEndOfLine (fst (next l)) = true ->
  exists b rest,
    from (input l) (pos l) = b :: rest /\
    isEndOfLine (byteZ b) = true /\
    from (input (snd (next l))) (pos (snd (next l))) = rest.
Proof.
  intros G He. destruct G as (G0 & G1 & G2).
  pose proof (next_rune_cases l ltac:(lia)) as N.
  unfold isEndOfLine, r_CR, r_LF in He.
  destruct (from (input l) (pos l)) as [|b rest] eqn:Es.
  - rewrite N in He. cbn in He. discriminate.
  - destruct N as [[Hb N]|[Hb N]].
    + exists b, rest. rewrite N in *. cbn [fst snd] in *.
      split; [reflexivity|]. split; [exact He|].
      destruct l; cbn in *. eapply from_cons_next; [|eassumption]. lia.
    + apply orb_true_iff in He. destruct He as [He|He];
        apply Z.eqb_eq in He; lia.
Qed.

(** When no line break of the remaining input is followed by the fence, the
    search reads to the end of the input and reports the missing fence. *)
Lemma closeFence_unclosed (fence : list byte) (t : itemType) (msg : string)
  (fuel : nat) (l : lexer) :
  good l ->
  closesLater fence (from (input l) (pos l)) = false ->
  len l - pos l < Z.of_nat fuel ->
  closeFence fence t msg fuel l =
    Some (errorf msg (mkLexer (input l) (start l) (len l) 0 (items l))).
Proof.
  revert l. induction fuel as [|fuel IH]; intros l G Hc Hf.
  - destruct G as (? & ? & ?). lia.
  - cbn [closeFence].
    pose proof (next_good l G) as (G1 & Hmono & Hadv & Heof).
    pose proof (next_frame l) as (Fi & Fs & Fit).
    pose proof (next_from l G) as Hfrom.
    pose proof (next_end_of_line l G) as Heol.
    destruct (next l) as [r l1] eqn:E. cbn [fst snd] in *.
    destruct (Z.eqb_spec r eof) as [Hr|Hr].
    + specialize (Heof Hr). rewrite next_at_end in E by exact Heof.
      injection E as _ <-. destruct G as (? & ? & ?).
      replace (len l) with (pos l) by lia. destruct l; reflexivity.
    + specialize (Hadv Hr).
      assert (Hno : isEndOfLine r && hasPrefix fence l1 = false).
      { destruct (isEndOfLine r) eqn:Er; [|reflexivity]. cbn [andb].
        destruct (Heol eq_refl) as (b & rest & Es & Eb & Er1).
        rewrite Es in Hc. cbn [closesLater] in Hc.
        apply orb_false_iff in Hc. destruct Hc as [Hc _].
        rewrite Eb in Hc. cbn [andb] in Hc.
        unfold hasPrefix. rewrite Er1. exact Hc. }
      rewrite Hno. rewrite IH.
      * unfold len. rewrite Fi, Fs, Fit. reflexivity.
      * exact G1.
      * rewrite Hfrom. apply closesLater_skipn. exact Hc.
      * unfold len in *. rewrite Fi. lia.
Qed.

(** What [consumeCRLF] leaves alone, whatever the state. *)
Lemma consumeCRLF_frame (l : lexer) :
  input (snd (consumeCRLF l)) = input l /\
  start (snd (consumeCRLF l)) = start l /\
  items (snd (consumeCRLF l)) = items l.
Proof.
  rewrite consumeCRLF_unfold. cbv zeta.
  pose proof (next_frame l) as (A1 & A2 & A3).
  destruct (fst (next l) =? r_CR); cbn [fst snd].
  - pose proof (next_frame (snd (next l))) as (B1 & B2 & B3).
    destruct (fst (next (snd (next l))) =? r_LF); cbn [fst snd].
    + rewrite B1, B2, B3. auto.
    + unfold set_width; cbn. auto.
  - pose proof (next_frame (set_width l (width (snd (next l)))))
      as (B1 & B2 & B3).
    destruct (fst (next (set_width l (width (snd (next l))))) =? r_LF);
      cbn [fst snd].
    + rewrite B1, B2, B3. unfold set_width; cbn. auto.
    + unfold set_width; cbn. auto.
Qed.

(** What the search sends: the error, or a frontmatter item that is never
    empty, since it ends with the line break in front of the fence. *)
Lemma closeFence_items (fence : list byte) (t : itemType) (msg : string)
  (fuel : nat) (l l' : lexer) (st : option stateFunc) :
  good l ->
  closeFence fence t msg fuel l = Some (l', st) ->
  (st = None /\ items l' = items l ++ [mkItem itemError (bytes msg)]) \/
  (st = Some LexMarkdown /\
   exists v, v <> [] /\ items l' = items l ++ [mkItem t v]).
Proof.
  revert l l' st. induction fuel as [|fuel IH]; intros l l' st G R;
    [discriminate R|].
  cbn [closeFence] in R.
  pose proof (next_good l G) as (G1 & Hmono & Hadv & Heof).
  pose proof (next_frame l) as (Fi & Fs & Fit).
  destruct (next l) as [r l1] eqn:E. cbn [fst snd] in *.
  destruct (Z.eqb_spec r eof) as [Hr|Hr].
  - injection R as <- <-. left. cbn. rewrite Fit. auto.
  - specialize (Hadv Hr).
    destruct (isEndOfLine r && hasPrefix fence l1) eqn:Ec.
    + right.
      pose proof (consumeCRLF_frame
                    (set_pos (emit t l1) (pos (emit t l1) + 3)))
        as (_ & _ & C).
      destruct (consumeCRLF _) as [c l4]. injection R as <- <-.
      split; [reflexivity|].
      exists (slice (input l1) (start l1) (pos l1)). split.
      * intros Ev. apply (f_equal (@length byte)) in Ev.
        apply (f_equal Z.of_nat) in Ev.
        destruct G as (? & ? & ?), G1 as (? & ? & ?).
        rewrite slice_length in Ev; cbn in Ev; unfold len in *; lia.
      * cbn [snd] in C. change (items (ignore l4)) with (items l4).
        rewrite C. cbn. rewrite Fit. reflexivity.
    + destruct (IH l1 l' st G1 R) as [[-> Hi]|[-> (v & Hv & Hi)]].
      * left. rewrite Hi, Fit. auto.
      * right. split; [reflexivity|]. exists v. rewrite Hi, Fit. auto.
Qed.

(** ** A frontmatter with an empty body

    The document is the fence, a line break, the fence again, and anything
    after it.  [d] is the fence character. *)

Section EmptyBody.

Variable d : byte.
Variable t : itemType.
Variables invalid unclosed : string.
Hypothesis d_ascii : byteZ d < 128.
Hypothesis d_not_eol : isEndOfLine (byteZ d) = false.

Lemma openFence_three (l : lexer) (s : list byte) :
  0 <= pos l ->
  from (input l) (pos l) = d :: d :: d :: s ->
  openFence (byteZ d) 3 l = (true, set_pos (set_width l 1) (pos l + 3)).
Proof.
  intros Hp Hs. cbn [openFence].
  destruct (next_byte l d _ Hp Hs d_ascii) as [-> Hs1].
  rewrite Z.eqb_refl. cbn [negb].
  set (l1 := set_pos (set_width l 1) (pos l + 1)).
  assert (Hp1 : 0 <= pos l1) by (subst l1; cbn; lia).
  assert (Hs1' : from (input l1) (pos l1) = d :: d :: s)
    by (subst l1; cbn; exact Hs1).
  destruct (next_byte l1 d _ Hp1 Hs1' d_ascii) as [-> Hs2].
  rewrite Z.eqb_refl. cbn [negb].
  set (l2 := set_pos (set_width l1 1) (pos l1 + 1)).
  assert (Hp2 : 0 <= pos l2) by (subst l2 l1; cbn; lia).
  assert (Hs2' : from (input l2) (pos l2) = d :: s)
    by (subst l2; cbn; exact Hs2).
  destruct (next_byte l2 d _ Hp2 Hs2' d_ascii) as [-> _].
  rewrite Z.eqb_refl. cbn [negb].
  subst l2 l1. destruct l; unfold set_pos, set_width; cbn.
  do 2 f_equal. lia.
Qed.

Lemma d_not_CR : (byteZ d =? r_CR) = false.
Proof. unfold isEndOfLine in d_not_eol. apply orb_false_iff in d_not_eol. apply d_not_eol. Qed.

Lemma d_not_LF : (byteZ d =? r_LF) = false.
Proof. unfold isEndOfLine in d_not_eol. apply orb_false_iff in d_not_eol. apply d_not_eol. Qed.

Lemma lineBreakLen_before_fence (lb s : list byte) :
  lb = [CR] \/ lb = [LF] \/ lb = [CR; LF] ->
  lineBreakLen (lb ++ d :: s) = Z.of_nat (length lb).
Proof.
  intros [-> | [-> | ->]]; cbn [app lineBreakLen length].
  - change (byteZ CR =? r_CR) with true. cbn iota. rewrite d_not_LF.
    reflexivity.
  - reflexivity.
  - reflexivity.
Qed.

Lemma closesLater_fence (rest : list byte) :
  closesLater [d; d; d] rest = false ->
  closesLater [d; d; d] ([d; d; d] ++ rest) = false.
Proof.
  intros H. cbn [app closesLater]. rewrite d_not_eol. cbn [andb orb].
  exact H.
Qed.

(** The opening fence and its line break are read and ignored; the search
    then starts right in front of the second fence, with nothing pending. *)
Lemma lexFrontmatterFence_empty_body (fuel : nat) (w : Z)
  (lb rest : list byte) :
  lb = [CR] \/ lb = [LF] \/ lb = [CR; LF] ->
  let inp := [d; d; d] ++ lb ++ [d; d; d] ++ rest in
  let k := 3 + Z.of_nat (length lb) in
  exists w',
    lexFrontmatterFence (byteZ d) [d; d; d] t invalid unclosed fuel
      (set_width (newLexer inp) w) =
    closeFence [d; d; d] t unclosed fuel (mkLexer inp k k w' []) /\
    from inp k = [d; d; d] ++ rest.
Proof.
  intros Hlb inp k. unfold lexFrontmatterFence.
  rewrite (openFence_three _ (lb ++ [d; d; d] ++ rest));
    [|cbn; lia|reflexivity].
  cbn [negb].
  set (l1 := set_pos _ _).
  assert (Hp1 : 0 <= pos l1) by (subst l1; cbn; lia).
  assert (Hs1 : from (input l1) (pos l1) = lb ++ [d; d; d] ++ rest)
    by (subst l1; reflexivity).
  destruct (consumeCRLF_spec l1 Hp1) as [w' ->].
  rewrite Hs1. cbn [app]. rewrite lineBreakLen_before_fence by exact Hlb.
  exists w'. split.
  - subst l1. reflexivity.
  - subst inp k. destruct Hlb as [-> | [-> | ->]]; reflexivity.
Qed.

Lemma mk_good (inp : list byte) (k w : Z) (its : list item) :
  0 <= k <= Z.of_nat (length inp) -> good (mkLexer inp k k w its).
Proof. intros H. unfold good, len; cbn. lia. Qed.

(** The run on such a document, from the state [lexStart] leaves. *)
Lemma run_empty_body (s : stateFunc) (w : Z) (lb rest : list byte) :
  lb = [CR] \/ lb = [LF] \/ lb = [CR; LF] ->
  let inp := [d; d; d] ++ lb ++ [d; d; d] ++ rest in
  (forall fuel l, call fuel s l =
     lexFrontmatterFence (byteZ d) [d; d; d] t invalid unclosed fuel l) ->
  exists l,
    run 3 (S (length inp)) (Some s) (set_width (newLexer inp) w) = Some l /\
    (forall i, In i (items l) -> typ i = t -> t <> itemMarkdown ->
               t <> itemEOF -> t <> itemError -> val i <> []) /\
    (closesLater [d; d; d] rest = false ->
     items l = [mkItem itemError (bytes unclosed)]).
Proof.
  intros Hlb inp Hcall. cbn [run]. rewrite Hcall.
  pose proof (lexFrontmatterFence_empty_body (S (length inp)) w lb rest Hlb)
    as H.
  cbv zeta in H. fold inp in H. destruct H as (w' & E & Hfrom). rewrite E.
  set (k := 3 + Z.of_nat (length lb)) in *.
  assert (Hk : 0 <= k <= Z.of_nat (length inp)).
  { subst k inp. rewrite !length_app. cbn [length]. lia. }
  pose proof (mk_good inp k w' [] Hk) as G.
  destruct (closeFence_total [d; d; d] t unclosed (S (length inp)) _
              eq_refl G) as (l' & st & R & Ri & Rp).
  { unfold len; cbn [input pos]. lia. }
  pose proof (closeFence_items _ _ _ _ _ _ _ G R) as Hit.
  rewrite R. destruct Hit as [[-> Hi]|[-> (v & Hv & Hi)]].
  - (* the fence is never closed *)
    exists l'. split; [reflexivity|]. cbn [items app] in Hi. split.
    + intros i Hin Ht _ _ Herr. rewrite Hi in Hin.
      destruct Hin as [<-|[]]. cbn in Ht. congruence.
    + intros _. exact Hi.
  - (* a later line break is followed by the fence *)
    destruct Rp as (G' & _). cbn [call].
    rewrite lexMarkdown_spec;
      [|exact G'|unfold len; rewrite Ri; cbn [input];
       destruct G' as (? & ? & ?); lia].
    eexists. split; [reflexivity|]. cbn [items app] in Hi. split.
    + intros i Hin Ht Hm He _. cbn in Hin. rewrite Hi in Hin. cbn in Hin.
      destruct Hin as [<-|[<-|[<-|[]]]]; cbn in *; congruence.
    + intros Hno. exfalso.
      rewrite closeFence_unclosed in R.
      * discriminate R.
      * exact G.
      * cbn [input pos]. rewrite Hfrom. apply closesLater_fence. exact Hno.
      * unfold len; cbn [input pos]. lia.
Qed.

End EmptyBody.

Lemma lexStart_byte (inp rest : list byte) (b : byte) :
  inp = b :: rest ->
  byteZ b < 128 ->
  fst (lexStart (newLexer inp)) = set_width (newLexer inp) 1 /\
  snd (lexStart (newLexer inp)) =
    Some (if byteZ b =? r_plus then LexFrontmatterTOML
          else if byteZ b =? r_minus then LexFrontmatterYAML
          else if byteZ b =? r_lbrace then LexFrontmatterJSON
          else LexMarkdown).
Proof.
  intros -> Hb. unfold lexStart. rewrite peek_spec.
  rewrite (next_ascii (newLexer (b :: rest)) b rest);
    [|cbn; lia|reflexivity|exact Hb].
  cbn [fst snd width set_pos set_width].
  repeat match goal with
         | |- context [if ?c =? ?e then _ else _] => destruct (c =? e)
         end; split; reflexivity.
Qed.

Lemma run_step (steps fuel : nat) (s : stateFunc) (l : lexer) :
  run (S steps) fuel (Some s) l =
    match call fuel s l with
    | None => None
    | Some (l', state') => run steps fuel state' l'
    end.
Proof. reflexivity. Qed.

(** C10, as stated, fails on an empty body followed by content with a fence
    of its own: the run does not reach the end of the input in the search,
    and no error item is sent; the frontmatter item holds the second fence
    and the text up to the third. *)
Lemma empty_body_later_fence_no_error :
  scan docEmptyYAMLThenFence =
    Some [mkItem itemFrontmatterYAML
            (bytes "---" ++ [LF] ++ bytes "foo" ++ [LF]);
          mkItem itemMarkdown (bytes "bar");
          mkItem itemEOF []] /\
  forall its i,
    scan docEmptyYAMLThenFence = Some its -> In i its -> typ i <> itemError.
Proof.
  split; [vm_compute; reflexivity|].
  intros its i H Hin. vm_compute in H. injection H as <-.
  cbn in Hin. destruct Hin as [<-|[<-|[<-|[]]]]; discriminate.
Qed.

(** C10, as the code behaves: when the closing fence starts right after the
    line break that follows the opening fence, the scanner never sends an
    empty frontmatter item, because that line break is consumed before the
    search begins.  When, besides, no line-break character of what follows
    the second fence is immediately followed by the fence, the search runs
    to the end of the input and the only item sent is the error of the
    missing closing fence.  The same holds for YAML and for TOML. *)
Theorem empty_frontmatter_body (lb rest : list byte) :
  lb = [CR] \/ lb = [LF] \/ lb = [CR; LF] ->
  (exists its,
      scan (fenceYAML ++ lb ++ fenceYAML ++ rest) = Some its /\
      (forall i, In i its -> typ i = itemFrontmatterYAML -> val i <> []) /\
      (closesLater fenceYAML rest = false ->
       its = [mkItem itemError (bytes unclosedYAML)])) /\
  (exists its,
      scan (fenceTOML ++ lb ++ fenceTOML ++ rest) = Some its /\
      (forall i, In i its -> typ i = itemFrontmatterTOML -> val i <> []) /\
      (closesLater fenceTOML rest = false ->
       its = [mkItem itemError (bytes unclosedTOML)])).
Proof.
  intros Hlb. split.
  - change fenceYAML with [b_minus; b_minus; b_minus].
    unfold scan, lex. rewrite run_step. cbn [call].
    set (inp := [b_minus; b_minus; b_minus] ++ lb ++ _).
    destruct (lexStart_byte inp _ b_minus eq_refl ltac:(cbn; lia)) as [E1 E2].
    destruct (lexStart (newLexer inp)) as [l1 st]. cbn [fst snd] in E1, E2.
    subst l1 st. change (byteZ b_minus =? r_plus) with false.
    change (byteZ b_minus =? r_minus) with true. cbn iota.
    destruct (run_empty_body b_minus itemFrontmatterYAML
                "invalid YAML delimiter" unclosedYAML
                ltac:(cbn; lia) eq_refl LexFrontmatterYAML 1 lb rest Hlb
                ltac:(reflexivity)) as (l & R & Hne & Herr).
    fold inp in R. rewrite R. exists (items l). split; [reflexivity|].
    split; [|exact Herr].
    intros i Hin Ht. apply Hne; [exact Hin|exact Ht|discriminate..].
  - change fenceTOML with [b_plus; b_plus; b_plus].
    unfold scan, lex. rewrite run_step. cbn [call].
    set (inp := [b_plus; b_plus; b_plus] ++ lb ++ _).
    destruct (lexStart_byte inp _ b_plus eq_refl ltac:(cbn; lia)) as [E1 E2].
    destruct (lexStart (newLexer inp)) as [l1 st]. cbn [fst snd] in E1, E2.
    subst l1 st. change (byteZ b_plus =? r_plus) with true. cbn iota.
    destruct (run_empty_body b_plus itemFrontmatterTOML
                "invalid TOML delimiter" unclosedTOML
                ltac:(cbn; lia) eq_refl LexFrontmatterTOML 1 lb rest Hlb
                ltac:(reflexivity)) as (l & R & Hne & Herr).
    fold inp in R. rewrite R. exists (items l). split; [reflexivity|].
    split; [|exact Herr].
    intros i Hin Ht. apply Hne; [exact Hin|exact Ht|discriminate..].
Qed.

(** C10 at the documents with [BODY] after the second fence: the only item
    is the error, for YAML and for TOML. *)
Lemma empty_frontmatter_body_witness :
  scan docEmptyYAML = Some [mkItem itemError (bytes unclosedYAML)] /\
  scan docEmptyTOML = Some [mkItem itemError (bytes unclosedTOML)].
Proof.
  destruct (empty_frontmatter_body [LF] ([LF] ++ bytes "BODY")
              (or_intror (or_introl eq_refl)))
    as [(y & Hy & _ & Ey) (m & Hm & _ & Em)].
  split.
  - unfold docEmptyYAML. change (bytes "---") with fenceYAML.
    rewrite Hy. f_equal. apply Ey. reflexivity.
  - unfold docEmptyTOML. change (bytes "+++") with fenceTOML.
    rewrite Hm. f_equal. apply Em. reflexivity.
Defined.

(** ** The JSON frontmatter *)

Lemma jsonLoop_unfold (fuel : nat) (q : bool) (lv : Z) (l : lexer) :
  jsonLoop (S fuel) q lv l =
    match jsonIter (q, lv, l) with
    | None =>
        Some (JReturn (errorf "unexpected EOF parsing JSON front matter"
                         (snd (next l))))
    | Some (q', lv', l2) =>
        if lv' =? 0 then Some (JBreak l2) else jsonLoop fuel q' lv' l2
    end.
Proof.
  cbn [jsonLoop jsonIter]. destruct (next l) as [r l1]. cbn [snd].
  destruct (r =? eof); [reflexivity|].
  destruct (jsonSwitch r q lv l1) as [[q' lv'] l2]. reflexivity.
Qed.

Lemma jsonIter_rune (q : bool) (lv : Z) (l : lexer) (r : rune) :
  fst (next l) = r -> r <> eof ->
  jsonIter (q, lv, l) = Some (jsonSwitch r q lv (snd (next l))).
Proof.
  intros Hr He. unfold jsonIter. destruct (next l) as [r' l1].
  cbn [fst snd] in *. subst r'. apply Z.eqb_neq in He. rewrite He.
  reflexivity.
Qed.

(** The loop leaves by [break] exactly at the first iteration after which
    the level is zero. *)
Lemma jsonLoop_break_iff (fuel : nat) (q : bool) (lv : Z) (l l' : lexer) :
  jsonLoop fuel q lv l = Some (JBreak l') <->
  exists n q',
    (n < fuel)%nat /\
    jsonIterN (S n) (q, lv, l) = Some (q', 0, l') /\
    forall k, (1 <= k <= n)%nat ->
              exists st, jsonIterN k (q, lv, l) = Some st /\ jsonLevel st <> 0.
Proof.
  revert q lv l. induction fuel as [|fuel IH]; intros q lv l.
  - split; [discriminate|]. intros (n & _ & Hn & _). lia.
  - rewrite jsonLoop_unfold. cbn [jsonIterN].
    destruct (jsonIter (q, lv, l)) as [[[q1 lv1] l1]|] eqn:E.
    + destruct (Z.eqb_spec lv1 0) as [Hz|Hz].
      * subst lv1. split.
        -- intros H. injection H as <-. exists 0%nat, q1.
           split; [lia|]. split; [reflexivity|]. intros k Hk. lia.
        -- intros (n & q' & Hn & Hit & Hmid). destruct n as [|n].
           ++ cbn in Hit. injection Hit as _ <-. reflexivity.
           ++ destruct (Hmid 1%nat ltac:(lia)) as (st & Hst & Hl).
              cbn [jsonIterN] in Hst. rewrite E in Hst.
              injection Hst as <-. cbn in Hl. congruence.
      * rewrite IH. split.
        -- intros (n & q' & Hn & Hit & Hmid). exists (S n), q'.
           split; [lia|]. split; [exact Hit|].
           intros k Hk. destruct k as [|k]; [lia|]. cbn [jsonIterN].
           rewrite E. destruct k as [|k].
           ++ eexists. split; [reflexivity|]. exact Hz.
           ++ apply Hmid. lia.
        -- intros (n & q' & Hn & Hit & Hmid). destruct n as [|n].
           ++ cbn in Hit. injection Hit as _ E0 _. congruence.
           ++ exists n, q'. split; [lia|]. split; [exact Hit|].
              intros k Hk. specialize (Hmid (S k) ltac:(lia)).
              cbn [jsonIterN] in Hmid. rewrite E in Hmid. exact Hmid.
    + split; [discriminate|]. intros (n & q' & _ & Hit & _). discriminate.
Qed.

(** C6: in the JSON state, a backslash makes the loop consume the character
    after it, whatever that character and whatever the flag, and leaves the
    in-quote flag and the level as they were, so an escaped quote does not
    toggle the flag; braces read inside a quoted string leave the level
    alone; outside they add and subtract one; a quote toggles the flag; and
    the loop is left by [break] exactly at the first iteration that brings
    the level to zero. *)
Theorem json_escape_and_nesting :
  (forall q lv l,
      fst (next l) = r_backslash ->
      jsonIter (q, lv, l) = Some (q, lv, snd (next (snd (next l))))) /\
  (forall lv l,
      fst (next l) = r_lbrace \/ fst (next l) = r_rbrace ->
      jsonIter (true, lv, l) = Some (true, lv, snd (next l))) /\
  (forall lv l,
      fst (next l) = r_lbrace ->
      jsonIter (false, lv, l) = Some (false, lv + 1, snd (next l))) /\
  (forall lv l,
      fst (next l) = r_rbrace ->
      jsonIter (false, lv, l) = Some (false, lv - 1, snd (next l))) /\
  (forall q lv l,
      fst (next l) = r_quote ->
      jsonIter (q, lv, l) = Some (negb q, lv, snd (next l))) /\
  (forall fuel q lv l l',
      jsonLoop fuel q lv l = Some (JBreak l') <->
      exists n q',
        (n < fuel)%nat /\
        jsonIterN (S n) (q, lv, l) = Some (q', 0, l') /\
        forall k, (1 <= k <= n)%nat ->
                  exists st,
                    jsonIterN k (q, lv, l) = Some st /\ jsonLevel st <> 0).
Proof.
  repeat split.
  - intros q lv l H. rewrite (jsonIter_rune q lv l _ H); [|discriminate].
    reflexivity.
  - intros lv l [H|H]; rewrite (jsonIter_rune true lv l _ H);
      try discriminate; reflexivity.
  - intros lv l H. rewrite (jsonIter_rune false lv l _ H); [|discriminate].
    reflexivity.
  - intros lv l H. rewrite (jsonIter_rune false lv l _ H); [|discriminate].
    reflexivity.
  - intros q lv l H. rewrite (jsonIter_rune q lv l _ H); [|discriminate].
    reflexivity.
  - apply jsonLoop_break_iff.
  - apply jsonLoop_break_iff.
Qed.

(** The escaped-quote example: the block closes at the last brace, not at
    the brace inside the string. *)
Example json_escaped_quote_document :
  scan (objEscaped ++ bytes "BODY") =
    Some [mkItem itemFrontmatterJSON objEscaped;
          mkItem itemMarkdown (bytes "BODY");
          mkItem itemEOF []].
Proof. vm_compute. reflexivity. Qed.

(** ** The traced lexer computes what the lexer computes *)

Lemma nextT_eq (s : tlexer) :
  nextT s = (fst (next (fst s)), log ANext (snd (next (fst s))) (snd s)).
Proof. unfold nextT. destruct (next (fst s)); reflexivity. Qed.

Lemma consumeCRLFT_erase (s : tlexer) :
  fst (consumeCRLFT s) = fst (consumeCRLF (fst s)) /\
  fst (snd (consumeCRLFT s)) = snd (consumeCRLF (fst s)).
Proof.
  unfold consumeCRLFT, consumeCRLF. cbn [fold_left].
  rewrite nextT_eq. destruct (next (fst s)) as [r1 l1]. cbn [fst snd].
  destruct (negb (r1 =? r_CR)); rewrite nextT_eq; cbn [fst snd log backupT];
    match goal with
    | |- context [next ?x] => destruct (next x) as [r2 l2]
    end; cbn [fst snd]; destruct (negb (r2 =? r_LF)); split; reflexivity.
Qed.

Lemma openFenceT_erase (delim : rune) (n : nat) (s : tlexer) :
  fst (openFenceT delim n s) = fst (openFence delim n (fst s)) /\
  fst (snd (openFenceT delim n s)) = snd (openFence delim n (fst s)).
Proof.
  revert s. induction n as [|n IH]; intros s; cbn [openFenceT openFence].
  - auto.
  - rewrite nextT_eq. destruct (next (fst s)) as [r l1]. cbn [fst snd].
    destruct (negb (r =? delim)); [auto|].
    apply (IH (log ANext l1 (snd s))).
Qed.

Lemma closeFenceT_erase (fence : list byte) (t : itemType) (msg : string)
  (fuel : nat) (s : tlexer) :
  option_map erase (closeFenceT fence t msg fuel s) =
    closeFence fence t msg fuel (fst s).
Proof.
  revert s. induction fuel as [|fuel IH]; intros s; [reflexivity|].
  cbn [closeFenceT closeFence].
  rewrite nextT_eq. destruct (next (fst s)) as [r l1]. cbn [fst snd].
  destruct (r =? eof); [reflexivity|].
  cbn [log fst]. destruct (isEndOfLine r && hasPrefix fence l1).
  - pose proof (consumeCRLFT_erase
                  (advanceT (emitT t (l1, snd s ++ [mkEvent ANext (start l1) (pos l1)]))))
      as [_ E].
    destruct (consumeCRLFT _) as [c s4]. cbn [fst snd] in E.
    cbn [option_map]. unfold erase, ignoreT. cbn [fst snd log].
    rewrite E. cbn [advanceT emitT log fst snd].
    destruct (consumeCRLF _); reflexivity.
  - apply (IH (l1, snd s ++ [mkEvent ANext (start l1) (pos l1)])).
Qed.

Lemma lexFrontmatterFenceT_erase (delim : rune) (fence : list byte)
  (t : itemType) (invalid unclosed : string) (fuel : nat) (s : tlexer) :
  option_map erase (lexFrontmatterFenceT delim fence t invalid unclosed fuel s) =
    lexFrontmatterFence delim fence t invalid unclosed fuel (fst s).
Proof.
  unfold lexFrontmatterFenceT, lexFrontmatterFence.
  pose proof (openFenceT_erase delim 3 s) as [E1 E2].
  destruct (openFenceT delim 3 s) as [ok s1].
  destruct (openFence delim 3 (fst s)) as [ok' l1]. cbn [fst snd] in E1, E2.
  subst ok' l1. destruct (negb ok); [reflexivity|].
  pose proof (consumeCRLFT_erase s1) as [_ E3].
  destruct (consumeCRLFT s1) as [c s2].
  destruct (consumeCRLF (fst s1)) as [c' l2]. cbn [fst snd] in E3. subst l2.
  rewrite closeFenceT_erase. reflexivity.
Qed.

Lemma jsonSwitchT_erase (r : rune) (q : bool) (lv : Z) (s : tlexer) :
  fst (jsonSwitchT r q lv s) = fst (jsonSwitch r q lv (fst s)) /\
  fst (snd (jsonSwitchT r q lv s)) = snd (jsonSwitch r q lv (fst s)).
Proof.
  unfold jsonSwitchT, jsonSwitch.
  repeat match goal with
         | |- context [if ?c =? ?e then _ else _] => destruct (c =? e)
         end; cbn [fst snd]; auto.
  rewrite nextT_eq. auto.
Qed.

Lemma jsonLoopT_erase (fuel : nat) (q : bool) (lv : Z) (s : tlexer) :
  option_map (fun e => match e with
                       | JBreakT s' => JBreak (fst s')
                       | JReturnT r => JReturn (erase r)
                       end) (jsonLoopT fuel q lv s) =
    jsonLoop fuel q lv (fst s).
Proof.
  revert q lv s. induction fuel as [|fuel IH]; intros q lv s; [reflexivity|].
  cbn [jsonLoopT jsonLoop].
  rewrite nextT_eq. destruct (next (fst s)) as [r l1]. cbn [fst snd].
  destruct (r =? eof); [reflexivity|].
  pose proof (jsonSwitchT_erase r q lv (log ANext l1 (snd s))) as [E1 E2].
  destruct (jsonSwitchT r q lv _) as [[q' lv'] s2].
  cbn [log fst snd] in E1, E2.
  destruct (jsonSwitch r q lv l1) as [[q'' lv''] l2]. cbn [fst snd] in E1, E2.
  injection E1 as <- <-. subst l2.
  destruct (lv' =? 0); [reflexivity|]. apply IH.
Qed.

Lemma lexFrontmatterJSONT_erase (fuel : nat) (s : tlexer) :
  option_map erase (lexFrontmatterJSONT fuel s) =
    lexFrontmatterJSON fuel (fst s).
Proof.
  unfold lexFrontmatterJSONT, lexFrontmatterJSON.
  rewrite <- jsonLoopT_erase.
  destruct (jsonLoopT fuel false 0 s) as [[s1|r]|]; cbn [option_map];
    [|reflexivity|reflexivity].
  pose proof (consumeCRLFT_erase s1) as [_ E].
  destruct (consumeCRLFT s1) as [c s2].
  destruct (consumeCRLF (fst s1)) as [c' l2]. cbn [fst snd] in E. subst l2.
  reflexivity.
Qed.

Lemma lexMarkdownT_erase (fuel : nat) (s : tlexer) :
  option_map erase (lexMarkdownT fuel s) = lexMarkdown fuel (fst s).
Proof.
  revert s. induction fuel as [|fuel IH]; intros s; [reflexivity|].
  cbn [lexMarkdownT lexMarkdown].
  rewrite nextT_eq. destruct (next (fst s)) as [r l1]. cbn [fst snd].
  destruct (r =? eof); [reflexivity|]. apply IH.
Qed.

Lemma lexStartT_erase (s : tlexer) : erase (lexStartT s) = lexStart (fst s).
Proof.
  unfold lexStartT, lexStart, peekT, peek. rewrite nextT_eq.
  destruct (next (fst s)) as [r l1]. cbn [fst snd log backupT].
  repeat match goal with
         | |- context [if ?c =? ?e then _ else _] => destruct (c =? e)
         end; reflexivity.
Qed.

Lemma callT_erase (fuel : nat) (st : stateFunc) (s : tlexer) :
  option_map erase (callT fuel st s) = call fuel st (fst s).
Proof.
  destruct st; cbn [callT call option_map].
  - rewrite lexStartT_erase. reflexivity.
  - apply lexFrontmatterFenceT_erase.
  - apply lexFrontmatterFenceT_erase.
  - apply lexFrontmatterJSONT_erase.
  - apply lexMarkdownT_erase.
  - reflexivity.
Qed.

Lemma runT_erase (steps fuel : nat) (st : option stateFunc) (s : tlexer) :
  option_map fst (runT steps fuel st s) = run steps fuel st (fst s).
Proof.
  revert st s. induction steps as [|steps IH]; intros st s.
  - destruct st; reflexivity.
  - destruct st as [st|]; [|reflexivity]. cbn [runT run].
    rewrite <- callT_erase.
    destruct (callT fuel st s) as [[s' st']|]; [|reflexivity].
    cbn [option_map erase fst snd]. apply IH.
Qed.

(** Dropping the log of the traced run gives the run. *)
Lemma lexT_erase (inp : list byte) : option_map fst (lexT inp) = lex inp.
Proof. unfold lexT, lex. apply runT_erase. Qed.

(** ** The invariant of the traced run *)

Lemma firstn_plus (A : Type) (n m : nat) (l : list A) :
  firstn (n + m) l = firstn n l ++ firstn m (skipn n l).
Proof.
  revert l. induction n as [|n IH]; intros l; [reflexivity|].
  destruct l as [|x l]; cbn [Nat.add firstn skipn app].
  - rewrite firstn_nil. reflexivity.
  - rewrite IH. reflexivity.
Qed.

Lemma slice_app (s : list byte) (a b c : Z) :
  0 <= a -> a <= b -> b <= c ->
  slice s a b ++ slice s b c = slice s a c.
Proof.
  intros Ha Hab Hbc. unfold slice.
  replace (Z.to_nat (c - a)) with (Z.to_nat (b - a) + Z.to_nat (c - b))%nat
    by lia.
  rewrite firstn_plus, skipn_skipn. do 3 f_equal. lia.
Qed.

Lemma sent_app (a b : list event) : sent (a ++ b) = sent a ++ sent b.
Proof. apply flat_map_app. Qed.

Lemma covered_app (a b : list event) :
  covered (a ++ b) = covered a ++ covered b.
Proof. apply flat_map_app. Qed.

(** An operation that only moves [pos] or sets [width]. *)
Lemma traceInv_move (inp : list byte) (a : action) (l l' : lexer)
  (tr : list event) :
  a = ANext \/ a = ABackup \/ a = APeek \/ a = AAdvance ->
  traceInv inp (l, tr) ->
  input l' = inp -> good l' -> items l' = items l -> start l' = start l ->
  traceInv inp (log a l' tr).
Proof.
  intros Ha (I & G & F & S & C) I' G' It' St'. cbn [fst snd] in *.
  unfold traceInv, log. cbn [fst snd].
  split; [exact I'|]. split; [exact G'|]. split; [|split].
  - apply Forall_app. split; [exact F|]. constructor; [|constructor].
    destruct G' as (? & ? & ?). unfold len in *. rewrite I' in *.
    unfold evOK. cbn. repeat split; try lia.
    intros i Hi. destruct Ha as [-> | [-> | [-> | ->]]]; discriminate Hi.
  - rewrite sent_app, S, It'.
    destruct Ha as [-> | [-> | [-> | ->]]]; cbn; apply app_nil_r.
  - rewrite covered_app, C, St'.
    destruct Ha as [-> | [-> | [-> | ->]]]; cbn; apply app_nil_r.
Qed.

Lemma traceInv_nextT (inp : list byte) (s : tlexer) :
  traceInv inp s -> traceInv inp (snd (nextT s)).
Proof.
  intros H. rewrite nextT_eq. cbn [snd]. destruct s as [l tr].
  pose proof H as (I & G & _). cbn [fst snd] in *.
  pose proof (next_good l G) as (G1 & _).
  pose proof (next_frame l) as (Fi & Fs & Fit).
  eapply traceInv_move; eauto. congruence.
Qed.

Lemma traceInv_backup_nextT (inp : list byte) (s : tlexer) :
  traceInv inp s -> traceInv inp (backupT (snd (nextT s))).
Proof.
  intros H. pose proof (traceInv_nextT inp s H) as H1.
  rewrite nextT_eq in *. cbn [snd] in *. destruct s as [l tr].
  pose proof H as (I & G & _). cbn [fst snd] in *.
  unfold backupT. cbn [log fst snd]. rewrite backup_next.
  pose proof (next_frame l) as (Fi & Fs & Fit).
  eapply traceInv_move; [| exact H1 | | | |]; auto.
Qed.

Lemma traceInv_peekT (inp : list byte) (s : tlexer) :
  traceInv inp s -> traceInv inp (snd (peekT s)).
Proof.
  intros H. pose proof (traceInv_backup_nextT inp s H) as H1.
  unfold peekT. destruct (nextT s) as [r s1]. cbn [snd] in *.
  destruct (backupT s1) as [l2 tr2] eqn:E. cbn [fst snd].
  pose proof H1 as (I & G & _). cbn [fst snd] in *.
  eapply traceInv_move; [| exact H1 | | | |]; auto.
Qed.

Lemma traceInv_consumeCRLFT (inp : list byte) (s : tlexer) :
  traceInv inp s -> traceInv inp (snd (consumeCRLFT s)).
Proof.
  intros H. unfold consumeCRLFT. cbn [fold_left].
  pose proof (traceInv_nextT inp s H) as H1.
  pose proof (traceInv_backup_nextT inp s H) as H2.
  destruct (nextT s) as [r1 s1]. cbn [snd] in *.
  destruct (negb (r1 =? r_CR)).
  - pose proof (traceInv_nextT inp _ H2) as H3.
    pose proof (traceInv_backup_nextT inp _ H2) as H4.
    destruct (nextT (backupT s1)) as [r2 s2]. cbn [snd] in *.
    destruct (negb (r2 =? r_LF)); assumption.
  - pose proof (traceInv_nextT inp _ H1) as H3.
    pose proof (traceInv_backup_nextT inp _ H1) as H4.
    destruct (nextT s1) as [r2 s2]. cbn [snd] in *.
    destruct (negb (r2 =? r_LF)); assumption.
Qed.

Lemma traceInv_advanceT (inp fence : list byte) (s : tlexer) :
  length fence = 3%nat ->
  traceInv inp s -> hasPrefix fence (fst s) = true ->
  traceInv inp (advanceT s).
Proof.
  intros Hf H Hp. destruct s as [l tr].
  pose proof H as (I & G & _). cbn [fst snd] in *.
  pose proof (advance_good fence l G Hp) as G'. rewrite Hf in G'.
  unfold advanceT. cbn [fst snd].
  eapply traceInv_move; [| exact H | | exact G' | |]; auto.
Qed.

Lemma traceInv_ignoreT (inp : list byte) (s : tlexer) :
  traceInv inp s ->
  traceInv inp (ignoreT s) /\ start (fst (ignoreT s)) = pos (fst (ignoreT s)).
Proof.
  intros (I & G & F & S & C). destruct s as [l tr]. cbn [fst snd] in *.
  unfold ignoreT, traceInv, log. cbn [fst snd].
  destruct G as (G0 & G1 & G2).
  split; [|reflexivity].
  split; [exact I|]. split; [unfold good, len in *; cbn; lia|].
  split; [|split].
  - apply Forall_app. split; [exact F|]. constructor; [|constructor].
    unfold evOK, len in *. rewrite I in *. cbn.
    repeat split; (lia || discriminate).
  - rewrite sent_app, S. cbn. apply app_nil_r.
  - rewrite covered_app, C. cbn. rewrite app_nil_r, I.
    apply slice_app; lia.
Qed.

Lemma traceInv_emitT (inp : list byte) (t : itemType) (s : tlexer) :
  traceInv inp s ->
  (t = itemError \/ t = itemEOF -> start (fst s) = pos (fst s)) ->
  traceInv inp (emitT t s) /\ start (fst (emitT t s)) = pos (fst (emitT t s)).
Proof.
  intros (I & G & F & S & C) Ht. destruct s as [l tr]. cbn [fst snd] in *.
  unfold emitT, traceInv, log. cbn [fst snd].
  destruct G as (G0 & G1 & G2).
  split; [|reflexivity].
  split; [exact I|]. split; [unfold good, len in *; cbn; lia|].
  split; [|split].
  - apply Forall_app. split; [exact F|]. constructor; [|constructor].
    unfold evOK, len in *. rewrite I in *. cbn.
    repeat split; (lia || discriminate).
  - rewrite sent_app, S. reflexivity.
  - rewrite covered_app, C. cbn [covered flat_map act typ val start emit
      set_start send pos]. rewrite app_nil_r, I.
    destruct t; try (apply slice_app; lia);
      rewrite <- Ht by auto; apply app_nil_r.
Qed.

Lemma traceInv_errorfT (inp : list byte) (msg : string) (s : tlexer) :
  traceInv inp s -> traceInv inp (fst (errorfT msg s)).
Proof.
  intros (I & G & F & S & C). destruct s as [l tr]. cbn [fst snd] in *.
  unfold errorfT, traceInv, log. cbn [fst snd].
  destruct G as (G0 & G1 & G2).
  split; [exact I|]. split; [unfold good, len in *; cbn; lia|].
  split; [|split].
  - apply Forall_app. split; [exact F|]. constructor; [|constructor].
    unfold evOK, len in *. rewrite I in *. cbn.
    repeat split; (lia || discriminate).
  - rewrite sent_app, S. reflexivity.
  - rewrite covered_app, C. cbn. apply app_nil_r.
Qed.

Lemma traceInv_openFenceT (inp : list byte) (delim : rune) (n : nat)
  (s : tlexer) :
  traceInv inp s -> traceInv inp (snd (openFenceT delim n s)).
Proof.
  revert s. induction n as [|n IH]; intros s H; cbn [openFenceT];
    [exact H|].
  pose proof (traceInv_nextT inp s H) as H1.
  destruct (nextT s) as [r s1]. cbn [snd] in *.
  destruct (negb (r =? delim)); [exact H1|]. apply IH. exact H1.
Qed.

Lemma traceInv_closeFenceT (inp fence : list byte) (t : itemType)
  (msg : string) (fuel : nat) (s s' : tlexer) (st : option stateFunc) :
  length fence = 3%nat ->
  t <> itemError -> t <> itemEOF ->
  traceInv inp s ->
  closeFenceT fence t msg fuel s = Some (s', st) ->
  traceInv inp s' /\ st <> Some LexDone.
Proof.
  intros Hf Ht1 Ht2. revert s. induction fuel as [|fuel IH]; intros s H R;
    [discriminate R|].
  cbn [closeFenceT] in R.
  pose proof (traceInv_nextT inp s H) as H1.
  destruct (nextT s) as [r s1]. cbn [snd] in *.
  destruct (r =? eof).
  - injection R as <- <-.
    split; [apply (traceInv_errorfT inp msg s1 H1)|discriminate].
  - destruct (isEndOfLine r && hasPrefix fence (fst s1)) eqn:Ec.
    + apply andb_true_iff in Ec. destruct Ec as [_ Hp].
      destruct (traceInv_emitT inp t s1 H1) as [H2 _].
      { intros [E|E]; congruence. }
      assert (Hp2 : hasPrefix fence (fst (emitT t s1)) = true).
      { destruct s1 as [l1 tr1]. cbn [emitT log fst snd] in *.
        destruct l1; exact Hp. }
      pose proof (traceInv_advanceT inp fence _ Hf H2 Hp2) as H3.
      pose proof (traceInv_consumeCRLFT inp _ H3) as H4.
      destruct (consumeCRLFT _) as [c s4]. cbn [snd] in H4.
      injection R as <- <-.
      split; [apply traceInv_ignoreT; exact H4|discriminate].
    + eapply IH; eassumption.
Qed.

Lemma traceInv_lexFrontmatterFenceT (inp : list byte) (delim : rune)
  (fence : list byte) (t : itemType) (invalid unclosed : string)
  (fuel : nat) (s s' : tlexer) (st : option stateFunc) :
  length fence = 3%nat ->
  t <> itemError -> t <> itemEOF ->
  traceInv inp s ->
  lexFrontmatterFenceT delim fence t invalid unclosed fuel s = Some (s', st) ->
  traceInv inp s' /\ st <> Some LexDone.
Proof.
  intros Hf Ht1 Ht2 H R. unfold lexFrontmatterFenceT in R.
  pose proof (traceInv_openFenceT inp delim 3 s H) as H1.
  destruct (openFenceT delim 3 s) as [ok s1]. cbn [snd] in H1.
  destruct (negb ok).
  - injection R as <- <-.
    split; [apply (traceInv_errorfT inp invalid s1 H1)|discriminate].
  - pose proof (traceInv_consumeCRLFT inp s1 H1) as H2.
    destruct (consumeCRLFT s1) as [c s2]. cbn [snd] in H2.
    destruct (traceInv_ignoreT inp s2 H2) as [H3 _].
    eapply traceInv_closeFenceT; eassumption.
Qed.

Lemma traceInv_jsonSwitchT (inp : list byte) (r : rune) (q : bool) (lv : Z)
  (s : tlexer) :
  traceInv inp s -> traceInv inp (snd (jsonSwitchT r q lv s)).
Proof.
  intros H. unfold jsonSwitchT.
  repeat match goal with
         | |- context [if ?c =? ?e then _ else _] => destruct (c =? e)
         end; cbn [snd]; try exact H.
  apply traceInv_nextT. exact H.
Qed.

Lemma traceInv_jsonLoopT (inp : list byte) (fuel : nat) (q : bool) (lv : Z)
  (s : tlexer) (e : jsonExitT) :
  traceInv inp s ->
  jsonLoopT fuel q lv s = Some e ->
  match e with
  | JBreakT s' => traceInv inp s'
  | JReturnT r => traceInv inp (fst r) /\ snd r = None
  end.
Proof.
  revert q lv s. induction fuel as [|fuel IH]; intros q lv s H R;
    [discriminate R|].
  cbn [jsonLoopT] in R.
  pose proof (traceInv_nextT inp s H) as H1.
  destruct (nextT s) as [r s1]. cbn [snd] in *.
  destruct (r =? eof).
  - injection R as <-.
    split; [apply (traceInv_errorfT inp _ s1 H1)|reflexivity].
  - pose proof (traceInv_jsonSwitchT inp r q lv s1 H1) as H2.
    destruct (jsonSwitchT r q lv s1) as [[q' lv'] s2]. cbn [snd] in H2.
    destruct (lv' =? 0).
    + injection R as <-. exact H2.
    + eapply IH; eassumption.
Qed.

Lemma traceInv_lexFrontmatterJSONT (inp : list byte) (fuel : nat)
  (s s' : tlexer) (st : option stateFunc) :
  traceInv inp s ->
  lexFrontmatterJSONT fuel s = Some (s', st) ->
  traceInv inp s' /\ st <> Some LexDone.
Proof.
  intros H R. unfold lexFrontmatterJSONT in R.
  destruct (jsonLoopT fuel false 0 s) as [e|] eqn:E; [|discriminate R].
  pose proof (traceInv_jsonLoopT inp fuel false 0 s e H E) as H1.
  destruct e as [s1|r].
  - pose proof (traceInv_consumeCRLFT inp s1 H1) as H2.
    destruct (consumeCRLFT s1) as [c s2]. cbn [snd] in H2.
    injection R as <- <-. split; [|discriminate].
    apply traceInv_emitT; [exact H2|].
    intros [E'|E']; discriminate E'.
  - injection R as ->. cbn [fst snd] in H1. destruct H1 as [H1 ->].
    split; [exact H1|discriminate].
Qed.

Lemma traceInv_lexMarkdownT (inp : list byte) (fuel : nat)
  (s s' : tlexer) (st : option stateFunc) :
  traceInv inp s ->
  lexMarkdownT fuel s = Some (s', st) ->
  traceInv inp s' /\ start (fst s') = pos (fst s').
Proof.
  revert s. induction fuel as [|fuel IH]; intros s H R; [discriminate R|].
  cbn [lexMarkdownT] in R.
  pose proof (traceInv_nextT inp s H) as H1.
  destruct (nextT s) as [r s1]. cbn [snd] in *.
  destruct (r =? eof).
  - injection R as <- <-. apply traceInv_emitT; [exact H1|].
    intros [E'|E']; discriminate E'.
  - eapply IH; eassumption.
Qed.


Lemma traceInv_callT (inp : list byte) (fuel : nat) (st : stateFunc)
  (s s' : tlexer) (st' : option stateFunc) :
  traceInv inp s ->
  (st = LexDone -> start (fst s) = pos (fst s)) ->
  callT fuel st s = Some (s', st') ->
  traceInv inp s' /\
  (st' = Some LexDone -> start (fst s') = pos (fst s')).
Proof.
  intros H Hd R. destruct st; cbn [callT] in R.
  - injection R as R. pose proof (traceInv_peekT inp s H) as H1.
    unfold lexStartT in R. destruct (peekT s) as [r s1]. cbn [snd] in H1.
    repeat match type of R with
           | context [if ?c =? ?e then _ else _] => destruct (c =? e)
           end; injection R as <- <-; (split; [exact H1|discriminate]).
  - unfold lexFrontmatterTOMLT in R.
    destruct (fun A B =>
                traceInv_lexFrontmatterFenceT inp _ fenceTOML itemFrontmatterTOML _ _ _ _ _ _
                  eq_refl A B H R) as [H1 Hn]; [discriminate..|].
    split; [exact H1|]. intros E. contradiction.
  - unfold lexFrontmatterYAMLT in R.
    destruct (fun A B =>
                traceInv_lexFrontmatterFenceT inp _ fenceYAML itemFrontmatterYAML _ _ _ _ _ _
                  eq_refl A B H R) as [H1 Hn]; [discriminate..|].
    split; [exact H1|]. intros E. contradiction.
  - destruct (traceInv_lexFrontmatterJSONT inp _ _ _ _ H R) as [H1 Hn].
    split; [exact H1|]. intros E. contradiction.
  - destruct (traceInv_lexMarkdownT inp _ _ _ _ H R) as [H1 H2].
    split; [exact H1|]. intros _. exact H2.
  - injection R as <- <-. split; [|discriminate].
    apply traceInv_emitT; [exact H|]. intros _. apply Hd. reflexivity.
Qed.

Lemma traceInv_runT (inp : list byte) (steps fuel : nat)
  (st : option stateFunc) (s s' : tlexer) :
  traceInv inp s ->
  (st = Some LexDone -> start (fst s) = pos (fst s)) ->
  runT steps fuel st s = Some s' ->
  traceInv inp s'.
Proof.
  revert st s. induction steps as [|steps IH]; intros st s H Hd R.
  - destruct st; [discriminate R|]. injection R as <-. exact H.
  - destruct st as [st|]; [|injection R as <-; exact H].
    cbn [runT] in R.
    destruct (callT fuel st s) as [[s1 st1]|] eqn:E; [|discriminate R].
    destruct (traceInv_callT inp fuel st s s1 st1 H) as [H1 Hd1]; auto.
    + intros ->. apply Hd. reflexivity.
    + eapply IH; eassumption.
Qed.

Lemma traceInv_init (inp : list byte) : traceInv inp (newLexer inp, []).
Proof.
  unfold traceInv. cbn [fst snd newLexer input start items sent covered
    flat_map]. repeat split; try apply newLexer_good.
  - constructor.
Qed.

(** The traced run returns, with the lexer of the run and a log that
    satisfies the invariant. *)
Lemma lexT_total (inp : list byte) :
  exists l tr,
    lexT inp = Some (l, tr) /\ lex inp = Some l /\
    traceInv inp (l, tr) /\ finished l.
Proof.
  destruct (lex_total inp) as (l & R & _ & F).
  pose proof (lexT_erase inp) as E. rewrite R in E.
  destruct (lexT inp) as [[l' tr]|] eqn:ET; [|discriminate E].
  injection E as ->. exists l, tr. split; [reflexivity|].
  split; [exact R|]. split; [|exact F].
  unfold lexT in ET. eapply traceInv_runT; [| |exact ET].
  - apply traceInv_init.
  - discriminate.
Qed.

(** ** The invariant and the round trip *)

(** C8: throughout every run, after each primitive operation ([next],
    [backup], [peek], [ignore], [emit], the advance past a closing fence, and
    the send of an error) [0 <= start <= pos <= len(input)] holds, and right
    after [emit] the start equals the position.  The log of the traced run
    has one entry per operation; the run it traces is the run of [lex]. *)
Theorem invariant_throughout_run (inp : list byte) :
  exists l tr,
    lexT inp = Some (l, tr) /\
    lex inp = Some l /\
    sent tr = items l /\
    good l /\
    Forall (fun e => 0 <= at_start e /\ at_start e <= at_pos e /\
                     at_pos e <= Z.of_nat (length inp)) tr /\
    (forall e i, In e tr -> act e = AEmit i -> at_start e = at_pos e).
Proof.
  destruct (lexT_total inp) as (l & tr & RT & R & (I & G & F & S & C) & _).
  cbn [fst snd] in *. exists l, tr.
  split; [exact RT|]. split; [exact R|]. split; [exact S|].
  split; [exact G|]. split.
  - eapply Forall_impl; [|exact F]. intros e (A & B & D & _). auto.
  - intros e i Hin Ha. rewrite Forall_forall in F.
    destruct (F e Hin) as (_ & _ & _ & E). eapply E. exact Ha.
Qed.

(** C3, as stated, fails on the unclosed TOML document: the run ends with an
    error, the only bytes accounted for are the opening fence and its line
    feed, and the byte after them is lost. *)
Lemma round_trip_fails_on_unclosed_toml :
  exists l tr,
    lexT docUnclosedTOML = Some (l, tr) /\
    covered tr = bytes "+++" ++ [LF] /\
    covered tr <> docUnclosedTOML.
Proof.
  eexists _, _. split; [vm_compute; reflexivity|].
  split; [vm_compute; reflexivity|]. vm_compute. discriminate.
Qed.

(** C3, as the code behaves: the values of the items sent by [emit] that are
    neither errors nor end markers, together with the spans dropped by
    [ignore], taken in the order of the run, make up the input up to the
    final [start], each byte once; when the run sends no error item, that is
    the whole input. *)
Theorem round_trip (inp : list byte) :
  exists l tr,
    lexT inp = Some (l, tr) /\
    lex inp = Some l /\
    sent tr = items l /\
    covered tr = slice inp 0 (start l) /\
    ((forall i, In i (items l) -> typ i <> itemError) -> covered tr = inp).
Proof.
  destruct (lexT_total inp) as (l & tr & RT & R & (I & G & F & S & C) & Fin).
  cbn [fst snd] in *. exists l, tr.
  split; [exact RT|]. split; [exact R|]. split; [exact S|].
  split; [exact C|].
  intros Hno. rewrite C.
  destruct Fin as (pre & i & Ei & [Herr|[_ Hst]]).
  - exfalso. apply (Hno i); [|exact Herr]. rewrite Ei.
    apply in_or_app. right. left. reflexivity.
  - rewrite Hst. unfold len. rewrite I. apply slice_full.
Qed.

(** C3 at the TOML document, whose run sends no error. *)
Lemma round_trip_witness :
  exists tr, option_map snd (lexT docTOML) = Some tr /\ covered tr = docTOML.
Proof.
  destruct (round_trip docTOML) as (l & tr & RT & R & _ & _ & H).
  exists tr. split; [rewrite RT; reflexivity|]. apply H.
  vm_compute in R. injection R as <-.
  intros i Hin. cbn in Hin.
  destruct Hin as [<-|[<-|[<-|[]]]]; discriminate.
Defined.

(** * Further properties of the lexer *)

(** ** More on [utf8.DecodeRune] and [next] *)

(** The bytes of an encoding after its first byte are continuation bytes,
    none below 0x80, and an encoding has at most four bytes. *)
Lemma DecodeRune_continuation (b : byte) (rest : list byte) :
  let w := snd (utf8.DecodeRune (b :: rest)) in
  w <= 4 /\
  (2 <= w -> 128 <= byteZ (nth 0 rest x00)) /\
  (3 <= w -> 128 <= byteZ (nth 1 rest x00)) /\
  (4 <= w -> 128 <= byteZ (nth 2 rest x00)).
Proof.
  cbv zeta. unfold utf8.DecodeRune, utf8.at_. cbn [nth].
  destruct (Z.ltb_spec (Z.of_nat (length (b :: rest))) 1) as [E0|E0];
    [cbn [length] in E0; lia|].
  first_split (byteZ b); rewrite Hfirst;
    unfold utf8.RuneError, utf8.locb, utf8.hicb, utf8.maskx, utf8.mask2,
      utf8.mask3, utf8.mask4, utf8.as_; eval_consts;
    decode_ifs; cbn [snd]; bool_hyps; repeat split; lia.
Qed.

Lemma inside_of_cons (l : lexer) (e : byte) (s' : list byte) :
  good l -> from (input l) (pos l) = e :: s' -> pos l < len l.
Proof.
  intros (G0 & G1 & G2) Hs.
  destruct (Z.lt_ge_cases (pos l) (len l)) as [H|H]; [exact H|].
  assert (E : from (input l) (pos l) = []).
  { apply from_nil_iff; [lia|exact H]. }
  congruence.
Qed.

(** What [next] steps over inside the input: the byte at the position and,
    after it, continuation bytes only. *)
Lemma next_skip (l : lexer) (e : byte) (s' : list byte) :
  good l ->
  from (input l) (pos l) = e :: s' ->
  let k := pos (snd (next l)) - pos l - 1 in
  0 <= k <= 3 /\
  from (input (snd (next l))) (pos (snd (next l))) = skipn (Z.to_nat k) s' /\
  (forall i, (i < Z.to_nat k)%nat -> 128 <= byteZ (nth i s' x00)).
Proof.
  intros G Hs. cbv zeta.
  pose proof (inside_of_cons l e s' G Hs) as Hin.
  pose proof (next_from l G) as Hfrom.
  pose proof (next_advance l) as Hadv.
  destruct G as (G0 & G1 & G2). specialize (Hadv ltac:(lia)).
  destruct Hadv as (_ & Hw & Hp & _).
  rewrite next_inside in * by exact Hin. cbn [fst snd] in *.
  rewrite Hs in *.
  pose proof (DecodeRune_continuation e s') as (W4 & C1 & C2 & C3).
  cbv zeta in W4, C1, C2, C3.
  set (w := snd (utf8.DecodeRune (e :: s'))) in *.
  cbn [pos set_pos width set_width] in *.
  replace (pos l + w - pos l - 1) with (w - 1) by lia.
  split; [lia|]. split.
  - rewrite Hfrom. replace (pos l + w - pos l) with w by lia.
    replace (Z.to_nat w) with (S (Z.to_nat (w - 1))) by lia. reflexivity.
  - intros i Hi. destruct i as [|[|[|i]]]; [apply C1|apply C2|apply C3|]; lia.
Qed.

(** ** The search for the closing fence, when there is one *)

Lemma firstClose_none (fence s : list byte) :
  firstClose fence s = None -> closesLater fence s = false.
Proof.
  induction s as [|e s' IH]; [reflexivity|]. cbn [firstClose closesLater].
  destruct (isEndOfLine (byteZ e) && HasPrefix s' fence); [discriminate|].
  destruct (firstClose fence s'); [discriminate|]. intros _. apply IH.
  reflexivity.
Qed.

Lemma firstClose_skip (fence : list byte) (k : nat) (s : list byte) (m : nat) :
  firstClose fence s = Some m ->
  (forall i, (i < k)%nat -> isEndOfLine (byteZ (nth i s x00)) = false) ->
  (k <= m)%nat /\ firstClose fence (skipn k s) = Some (m - k)%nat.
Proof.
  revert s m. induction k as [|k IH]; intros s m H Hk.
  - rewrite Nat.sub_0_r. split; [lia|exact H].
  - destruct s as [|e s']; [discriminate H|]. cbn [firstClose] in H.
    pose proof (Hk 0%nat ltac:(lia)) as H0. cbn [nth] in H0.
    rewrite H0 in H. cbn [andb] in H.
    destruct (firstClose fence s') as [m'|] eqn:E; [|discriminate H].
    injection H as <-. destruct (IH s' m' E) as [A B].
    + intros i Hi. apply (Hk (S i)). lia.
    + split; [lia|exact B].
Qed.

Lemma high_not_end_of_line (x : Z) : 128 <= x -> isEndOfLine x = false.
Proof.
  intros H. unfold isEndOfLine, r_CR, r_LF.
  destruct (Z.eqb_spec x 13); [lia|]. destruct (Z.eqb_spec x 10); [lia|].
  reflexivity.
Qed.

(** When the first line break followed by the fence is at index [n] of the
    remaining input, the search stops right behind it: the pending span up
    to and with that line break is sent, the fence is stepped over, and a
    line break after it is consumed and ignored with it. *)
Lemma closeFence_found (fence : list byte) (t : itemType) (msg : string)
  (fuel : nat) (l : lexer) (n : nat) :
  good l ->
  firstClose fence (from (input l) (pos l)) = Some n ->
  len l - pos l < Z.of_nat fuel ->
  closeFence fence t msg fuel l =
    let lm := mkLexer (input l) (start l) (pos l + Z.of_nat n + 1) 1
                (items l) in
    Some (ignore (snd (consumeCRLF (set_pos (emit t lm) (pos (emit t lm) + 3)))),
          Some LexMarkdown).
Proof.
  revert l n. induction fuel as [|fuel IH]; intros l n G Hc Hf.
  - destruct G as (? & ? & ?). lia.
  - cbn [closeFence]. cbv zeta.
    destruct (from (input l) (pos l)) as [|e s'] eqn:Es; [discriminate Hc|].
    pose proof (next_good l G) as (G1 & Hmono & Hadv & Heof).
    pose proof (next_frame l) as (Fi & Fs & Fit).
    pose proof (next_end_of_line l G) as Heol.
    pose proof (next_skip l e s' G Es) as (Hk & Hfrom & Hhigh).
    cbv zeta in Hk, Hfrom, Hhigh.
    pose proof (inside_of_cons l e s' G Es) as Hin.
    cbn [firstClose] in Hc.
    destruct (isEndOfLine (byteZ e) && HasPrefix s' fence) eqn:Em.
    + (* the match is here *)
      injection Hc as <-. apply andb_true_iff in Em. destruct Em as [Ee Ep].
      assert (Hb : byteZ e < 128).
      { destruct (Z.lt_ge_cases (byteZ e) 128); [assumption|].
        rewrite high_not_end_of_line in Ee by assumption. discriminate. }
      destruct G as (G0 & G2 & G3).
      destruct (next_byte l e s' ltac:(lia) Es Hb) as [-> Hs1].
      assert (He : (byteZ e =? eof) = false).
      { apply Z.eqb_neq. pose proof (byteZ_range e). unfold eof. lia. }
      rewrite He, Ee. unfold hasPrefix. cbn [input pos set_pos set_width].
      rewrite Hs1, Ep. cbn [andb].
      replace (pos l + Z.of_nat 0 + 1) with (pos l + 1) by lia.
      change (set_pos (set_width l 1) (pos l + 1))
        with (mkLexer (input l) (start l) (pos l + 1) 1 (items l)).
      destruct (consumeCRLF _) as [c l4]. reflexivity.
    + destruct (firstClose fence s') as [m|] eqn:Em'; [|discriminate Hc].
      injection Hc as <-.
      destruct (next l) as [r l1] eqn:E. cbn [fst snd] in *.
      destruct (Z.eqb_spec r eof) as [Hr|Hr]; [specialize (Heof Hr); lia|].
      assert (Hno : isEndOfLine r && hasPrefix fence l1 = false).
      { destruct (isEndOfLine r) eqn:Er; [|reflexivity]. cbn [andb].
        destruct (Heol eq_refl) as (b & rest & Eb & Eeol & Er1).
        rewrite Es in Eb. injection Eb as <- <-. rewrite Eeol in Em. cbn [andb] in Em.
        unfold hasPrefix. rewrite Er1. exact Em. }
      rewrite Hno.
      destruct (firstClose_skip fence (Z.to_nat (pos l1 - pos l - 1)) s' m Em')
        as [Hle Hskip].
      { intros i Hi. apply high_not_end_of_line. apply Hhigh. exact Hi. }
      rewrite <- Hfrom in Hskip.
      rewrite (IH l1 _ G1 Hskip); [|unfold len in *; rewrite Fi; lia].
      cbv zeta. unfold len. rewrite Fi, Fs, Fit.
      replace (pos l1 + Z.of_nat (m - Z.to_nat (pos l1 - pos l - 1)) + 1)
        with (pos l + Z.of_nat (S m) + 1) by lia.
      reflexivity.
Qed.

(** ** Documents that open with a fence *)

Lemma slice_to_end (s : list byte) (p : Z) :
  slice s p (Z.of_nat (length s)) = from s p.
Proof.
  unfold slice, from. apply firstn_all2. rewrite length_skipn. lia.
Qed.

Section FenceDocument.

Variable d : byte.
Variable t : itemType.
Variables invalid unclosed : string.
Hypothesis d_ascii : byteZ d < 128.

(** The run on the fence followed by [s0], from the state [lexStart]
    leaves. *)
Lemma run_fence_document (st : stateFunc) (w : Z) (s0 : list byte) :
  (forall fuel l, call fuel st l =
     lexFrontmatterFence (byteZ d) [d; d; d] t invalid unclosed fuel l) ->
  option_map items
    (run 3 (S (length ([d; d; d] ++ s0))) (Some st)
       (set_width (newLexer ([d; d; d] ++ s0)) w)) =
  Some (fenceItems [d; d; d] t unclosed s0).
Proof.
  intros Hcall. set (inp := [d; d; d] ++ s0).
  rewrite run_step, Hcall. unfold lexFrontmatterFence.
  rewrite (openFence_three d d_ascii _ s0); [|cbn; lia|reflexivity].
  cbn [negb].
  set (l1 := set_pos _ _).
  assert (Hp1 : 0 <= pos l1) by (subst l1; cbn; lia).
  assert (Hs1 : from (input l1) (pos l1) = s0) by (subst l1; reflexivity).
  destruct (consumeCRLF_spec l1 Hp1) as [w' ->]. rewrite Hs1.
  pose proof (lineBreakLen_bound s0) as Hlb.
  set (k := 3 + lineBreakLen s0).
  assert (Hlen : Z.of_nat (length inp) = 3 + Z.of_nat (length s0)).
  { subst inp. rewrite length_app. cbn [length]. lia. }
  change (ignore (set_pos (set_width l1 w') (pos l1 + lineBreakLen s0)))
    with (mkLexer inp k k w' []).
  assert (G : good (mkLexer inp k k w' [])) by (apply mk_good; lia).
  assert (Hfrom : from inp k = dropLineBreak s0).
  { subst k. rewrite from_add by lia. reflexivity. }
  unfold fenceItems. cbv zeta.
  destruct (firstClose [d; d; d] (dropLineBreak s0)) as [n|] eqn:Ec.
  - (* closed at index [n] *)
    destruct (closeFence_total [d; d; d] t unclosed (S (length inp)) _
                eq_refl G) as (l' & st' & R & Ri & Rp).
    { unfold len; cbn [input pos]. lia. }
    rewrite closeFence_found with (n := n) in R;
      [|exact G|cbn [input pos]; rewrite Hfrom; exact Ec
       |unfold len; cbn [input pos]; lia].
    rewrite closeFence_found with (n := n);
      [|exact G|cbn [input pos]; rewrite Hfrom; exact Ec
       |unfold len; cbn [input pos]; lia].
    cbv zeta in R |- *. cbn [input start pos items emit send set_start] in R |- *.
    injection R as R1 R2. subst st'. destruct Rp as [G' _].
    set (la := set_pos (emit t _) _) in R1 |- *.
    assert (Hpa : 0 <= pos la) by (subst la; cbn [pos set_pos]; lia).
    destruct (consumeCRLF_spec la Hpa) as [w'' Ecr].
    rewrite Ecr in R1 |- *. cbn [snd] in R1 |- *.
    rewrite run_step. cbn [call].
    rewrite lexMarkdown_spec;
      [|rewrite R1; exact G'
       |rewrite R1; unfold len; rewrite Ri; cbn [input];
        destruct G' as (? & ? & ?); lia].
    rewrite run_step. cbn [call lexDone run option_map].
    subst la. cbn [items emit send set_start ignore set_pos set_width input
      start pos app len].
    unfold len. cbn [input ignore set_start set_pos set_width emit send].
    assert (E1 : slice inp k (k + Z.of_nat n + 1) =
                 firstn (S n) (dropLineBreak s0)).
    { unfold slice. rewrite <- Hfrom. unfold from. f_equal. lia. }
    assert (E2 : from inp (k + Z.of_nat n + 1 + 3) =
                 skipn 3 (skipn (S n) (dropLineBreak s0))).
    { rewrite <- Hfrom.
      replace (k + Z.of_nat n + 1 + 3) with (k + Z.of_nat (3 + S n)) by lia.
      rewrite from_add by lia. rewrite Nat2Z.id, <- skipn_skipn.
      reflexivity. }
    pose proof (lineBreakLen_bound (from inp (k + Z.of_nat n + 1 + 3))).
    rewrite E1, slice_to_end, slice_empty, from_add by lia.
    rewrite E2. reflexivity.
  - (* never closed *)
    rewrite closeFence_unclosed;
      [|exact G|cbn [input pos]; rewrite Hfrom; apply firstClose_none; exact Ec
       |unfold len; cbn [input pos]; lia].
    reflexivity.
Qed.

End FenceDocument.

(** ** [hasPrefix], [peek] and [lexStart] *)

Lemma bytes_eqb_eq (a b : list byte) : bytes_eqb a b = true <-> a = b.
Proof.
  revert b. induction a as [|x a IH]; intros [|y b]; cbn [bytes_eqb];
    try (split; [discriminate|congruence]); [tauto|].
  rewrite andb_true_iff, IH. split.
  - intros [H ->]. apply byte_dec_bl in H. congruence.
  - intros H. injection H as -> ->. split; [apply byte_dec_lb|]; reflexivity.
Qed.

Lemma HasPrefix_iff (s prefix : list byte) :
  HasPrefix s prefix = true <-> exists rest, s = prefix ++ rest.
Proof.
  unfold HasPrefix. rewrite andb_true_iff, Nat.leb_le, bytes_eqb_eq. split.
  - intros [_ H]. exists (skipn (length prefix) s).
    rewrite <- H at 1. symmetry. apply firstn_skipn.
  - intros [rest ->]. rewrite length_app. split; [lia|].
    rewrite firstn_app, Nat.sub_diag, firstn_all, firstn_O.
    apply app_nil_r.
Qed.

(** X11: [hasPrefix] holds exactly when the input from the read position on
    starts with the prefix; being a test, it touches nothing. *)
Theorem hasPrefix_starts_with (prefix : list byte) (l : lexer) :
  hasPrefix prefix l = true <->
  exists rest, from (input l) (pos l) = prefix ++ rest.
Proof. apply HasPrefix_iff. Qed.

(** X10: [peek] returns the rune [next] would return and consumes nothing: the
    input, the start, the position and the items are as before, at the end
    of the input as well as in front of an encoding of several bytes. *)
Theorem peek_consumes_nothing (l : lexer) :
  fst (peek l) = fst (next l) /\
  input (snd (peek l)) = input l /\
  start (snd (peek l)) = start l /\
  pos (snd (peek l)) = pos l /\
  items (snd (peek l)) = items l.
Proof. rewrite peek_spec. destruct l; cbn. auto. Qed.

Lemma lexStart_startState (l : lexer) :
  0 <= pos l ->
  lexStart l =
    (set_width l (width (snd (next l))),
     Some (startState (from (input l) (pos l)))).
Proof.
  intros Hp. unfold lexStart. rewrite peek_spec.
  pose proof (next_rune_cases l Hp) as N.
  destruct (from (input l) (pos l)) as [|b rest] eqn:Es; cbn [startState].
  - rewrite N. reflexivity.
  - destruct N as [[Hb N]|[Hb N]].
    + rewrite N. cbn [fst snd].
      repeat match goal with
             | |- context [if ?c =? ?e then _ else _] => destruct (c =? e)
             end; reflexivity.
    + unfold r_plus, r_minus, r_lbrace.
      repeat match goal with
             | |- context [if ?c =? ?e then _ else _] =>
                 destruct (Z.eqb_spec c e); [lia|]
             end.
      reflexivity.
Qed.

(** X7: [lexStart] chooses the next state from the first byte of the remaining
    input alone (the plus sign, the hyphen, the left brace, or anything
    else, the empty input included) and consumes nothing. *)
Theorem lexStart_dispatch (l : lexer) :
  0 <= pos l ->
  snd (lexStart l) = Some (startState (from (input l) (pos l))) /\
  input (fst (lexStart l)) = input l /\
  start (fst (lexStart l)) = start l /\
  pos (fst (lexStart l)) = pos l /\
  items (fst (lexStart l)) = items l.
Proof.
  intros Hp. rewrite lexStart_startState by exact Hp.
  destruct l; cbn. auto.
Qed.

Lemma lexStart_dispatch_witness :
  snd (lexStart (newLexer (bytes "-x"))) = Some LexFrontmatterYAML.
Proof.
  exact (proj1 (lexStart_dispatch (newLexer (bytes "-x")) ltac:(cbn; lia))).
Defined.

(** ** The items of a document that opens with a fence *)

Lemma scan_newLexer (inp : list byte) :
  scan inp =
    option_map items
      (run 3 (S (length inp)) (Some (startState inp))
         (set_width (newLexer inp) (width (snd (next (newLexer inp)))))).
Proof.
  unfold scan, lex. rewrite run_step. cbn [call].
  rewrite lexStart_startState by (cbn; lia). reflexivity.
Qed.

(** X1: Whatever follows an opening fence of three hyphens or three plus signs,
    the items sent are those of [fenceItems]: the line break after the
    opening fence is dropped, the frontmatter item runs through the first
    line break that the fence follows, the closing fence and the line break
    after it are dropped, and the rest is the content; without such a line
    break the only item is the error of the missing closing fence. *)
Theorem fence_document_items (s0 : list byte) :
  scan (fenceYAML ++ s0) =
    Some (fenceItems fenceYAML itemFrontmatterYAML unclosedYAML s0) /\
  scan (fenceTOML ++ s0) =
    Some (fenceItems fenceTOML itemFrontmatterTOML unclosedTOML s0).
Proof.
  split; rewrite scan_newLexer.
  - exact (run_fence_document b_minus itemFrontmatterYAML invalidYAML
             unclosedYAML ltac:(cbn; lia) LexFrontmatterYAML _ s0
             ltac:(reflexivity)).
  - exact (run_fence_document b_plus itemFrontmatterTOML invalidTOML
             unclosedTOML ltac:(cbn; lia) LexFrontmatterTOML _ s0
             ltac:(reflexivity)).
Qed.

(** ** An opening fence that is cut short *)

Lemma next_is_byte (l : lexer) (d : byte) :
  0 <= pos l -> byteZ d < 128 ->
  (fst (next l) =? byteZ d) = true ->
  exists rest,
    from (input l) (pos l) = d :: rest /\
    next l = (byteZ d, set_pos (set_width l 1) (pos l + 1)) /\
    from (input l) (pos l + 1) = rest.
Proof.
  intros Hp Hd H. apply Z.eqb_eq in H.
  pose proof (next_rune_cases l Hp) as N.
  destruct (from (input l) (pos l)) as [|b rest] eqn:Es.
  - rewrite N in H. cbn in H. pose proof (byteZ_range d). unfold eof in H. lia.
  - destruct N as [[Hb N]|[Hb N]]; [|lia].
    rewrite N in H. cbn [fst] in H. apply byteZ_inj in H. subst b.
    exists rest. split; [reflexivity|]. split; [exact N|].
    eapply from_cons_next; eassumption.
Qed.

Lemma openFence_true (d : byte) (n : nat) (l : lexer) :
  0 <= pos l -> byteZ d < 128 ->
  fst (openFence (byteZ d) n l) = true ->
  exists rest, from (input l) (pos l) = repeat d n ++ rest.
Proof.
  intros Hp Hd. revert l Hp. induction n as [|n IH]; intros l Hp H.
  - exists (from (input l) (pos l)). reflexivity.
  - cbn [openFence] in H.
    destruct (fst (next l) =? byteZ d) eqn:E.
    + destruct (next_is_byte l d Hp Hd E) as (rest & Es & N & Es1).
      rewrite N in H. rewrite Z.eqb_refl in H. cbn [negb] in H.
      destruct (IH (set_pos (set_width l 1) (pos l + 1)) ltac:(cbn; lia) H)
        as (rest' & Er).
      cbn [input pos set_pos set_width] in Er. rewrite Es1 in Er.
      exists rest'. rewrite Es, Er. reflexivity.
    + destruct (next l) as [r l1]. cbn [fst] in E. rewrite E in H.
      cbn in H. discriminate H.
Qed.

Lemma run_invalid_fence (d : byte) (t : itemType) (invalid unclosed : string)
  (st : stateFunc) (w : Z) (inp : list byte) :
  byteZ d < 128 ->
  HasPrefix inp [d; d; d] = false ->
  (forall fuel l, call fuel st l =
     lexFrontmatterFence (byteZ d) [d; d; d] t invalid unclosed fuel l) ->
  option_map items
    (run 3 (S (length inp)) (Some st) (set_width (newLexer inp) w)) =
  Some [mkItem itemError (bytes invalid)].
Proof.
  intros Hd Hp Hcall. rewrite run_step, Hcall. unfold lexFrontmatterFence.
  pose proof (openFence_true d 3 (set_width (newLexer inp) w)
                ltac:(cbn; lia) Hd) as Ht.
  pose proof (openFence_good (byteZ d) 3 (set_width (newLexer inp) w)
                (set_width_good _ _ (newLexer_good inp))) as (_ & _ & _ & Hit).
  destruct (openFence (byteZ d) 3 (set_width (newLexer inp) w)) as [ok l1].
  cbn [fst snd] in *. destruct ok.
  - destruct (Ht eq_refl) as (rest & Er). cbn [input pos newLexer set_width] in Er.
    rewrite from_0 in Er.
    assert (HasPrefix inp [d; d; d] = true)
      by (apply HasPrefix_iff; exists rest; exact Er).
    congruence.
  - cbn [negb errorf run option_map items send]. rewrite Hit. reflexivity.
Qed.

(** X2: An input that starts with a plus sign (a hyphen) but not with three of
    them yields one item, the error of the invalid TOML (YAML) delimiter. *)
Theorem invalid_opening_fence (rest : list byte) :
  (HasPrefix (b_plus :: rest) fenceTOML = false ->
   scan (b_plus :: rest) = Some [mkItem itemError (bytes invalidTOML)]) /\
  (HasPrefix (b_minus :: rest) fenceYAML = false ->
   scan (b_minus :: rest) = Some [mkItem itemError (bytes invalidYAML)]).
Proof.
  split; intros H; rewrite scan_newLexer.
  - exact (run_invalid_fence b_plus itemFrontmatterTOML invalidTOML
             unclosedTOML LexFrontmatterTOML _ _ ltac:(cbn; lia) H
             ltac:(reflexivity)).
  - exact (run_invalid_fence b_minus itemFrontmatterYAML invalidYAML
             unclosedYAML LexFrontmatterYAML _ _ ltac:(cbn; lia) H
             ltac:(reflexivity)).
Qed.

(** The theorem at two plus signs followed by text. *)
Lemma invalid_opening_fence_witness :
  scan (bytes "++ title") = Some [mkItem itemError (bytes invalidTOML)].
Proof.
  exact (proj1 (invalid_opening_fence (bytes "+ title")) eq_refl).
Defined.

(** ** The contract of [next] *)

(** X8: In a state that satisfies the invariant, [next] reports the end of the
    input exactly at the end of the input, where it moves nothing and
    records the width zero; anywhere else it returns a rune that is not the
    end marker and advances by the width it records, between one and four
    bytes and never beyond the input.  It never touches the input, the
    start or the items. *)
Theorem next_contract (l : lexer) :
  good l ->
  (fst (next l) = eof <-> pos l = len l) /\
  (pos l = len l -> snd (next l) = set_width l 0) /\
  (pos l < len l ->
   0 <= fst (next l) /\
   1 <= width (snd (next l)) <= 4 /\
   pos (snd (next l)) = pos l + width (snd (next l)) /\
   pos (snd (next l)) <= len l) /\
  input (snd (next l)) = input l /\
  start (snd (next l)) = start l /\
  items (snd (next l)) = items l.
Proof.
  intros G. pose proof (next_good l G) as (_ & _ & Hadv & Heof).
  pose proof (next_frame l) as (Fi & Fs & Fit).
  destruct G as (G0 & G1 & G2).
  split; [|split; [|split; [|auto]]].
  - split; [intros H; specialize (Heof H); lia|].
    intros H. rewrite next_at_end by lia. reflexivity.
  - intros H. rewrite next_at_end by lia. reflexivity.
  - intros H. pose proof (next_advance l ltac:(lia)) as (A & B & C & D).
    repeat split; try assumption.
    rewrite next_inside by exact H. cbn [snd width set_pos set_width].
    destruct (from (input l) (pos l)) as [|b rest] eqn:Es.
    + cbn. lia.
    + apply (DecodeRune_continuation b rest).
Qed.

(** The contract at the start of a two-byte input. *)
Lemma next_contract_witness :
  pos (snd (next (newLexer (bytes "ab")))) =
    0 + width (snd (next (newLexer (bytes "ab")))).
Proof.
  pose proof (next_contract (newLexer (bytes "ab")) (newLexer_good _))
    as (_ & _ & H & _).
  destruct (H ltac:(vm_compute; reflexivity)) as (_ & _ & E & _).
  exact E.
Defined.

(** ** A fence in the middle of a line *)

Lemma closesLater_no_line_break (fence s : list byte) :
  hasLineBreak s = false -> closesLater fence s = false.
Proof.
  induction s as [|e s' IH]; [reflexivity|].
  unfold hasLineBreak. cbn [existsb closesLater]. intros H.
  apply orb_false_iff in H. destruct H as [He Hs].
  rewrite He. cbn [andb orb]. apply IH. exact Hs.
Qed.

Lemma firstClose_closesLater (fence s : list byte) :
  closesLater fence s = false -> firstClose fence s = None.
Proof.
  induction s as [|e s' IH]; [reflexivity|]. cbn [firstClose closesLater].
  intros H. apply orb_false_iff in H. destruct H as [-> Hs].
  rewrite (IH Hs). reflexivity.
Qed.

(** X3: A fence that no line break precedes does not close the block: when the
    text after the opening fence and its line break holds no line-break
    character at all, the only item is the error of the missing closing
    fence, whether or not the text holds the fence. *)
Theorem fence_in_line_does_not_close (lb body : list byte) :
  lb = [] \/ lb = [CR] \/ lb = [LF] \/ lb = [CR; LF] ->
  hasLineBreak body = false ->
  scan (fenceYAML ++ lb ++ body) =
    Some [mkItem itemError (bytes unclosedYAML)] /\
  scan (fenceTOML ++ lb ++ body) =
    Some [mkItem itemError (bytes unclosedTOML)].
Proof.
  intros Hlb Hb.
  assert (Hdrop : dropLineBreak (lb ++ body) = body).
  { unfold dropLineBreak. destruct body as [|c body'].
    - destruct Hlb as [-> | [-> | [-> | ->]]]; reflexivity.
    - unfold hasLineBreak in Hb. cbn [existsb] in Hb.
      apply orb_false_iff in Hb. destruct Hb as [Hc _].
      unfold isEndOfLine in Hc. apply orb_false_iff in Hc.
      destruct Hc as [Hcr Hlf].
      destruct Hlb as [-> | [-> | [-> | ->]]]; cbn [app lineBreakLen];
        try change (byteZ CR =? r_CR) with true;
        try change (byteZ LF =? r_CR) with false;
        try change (byteZ LF =? r_LF) with true;
        cbn iota; rewrite ?Hcr, ?Hlf; reflexivity. }
  assert (Hnone : forall fence, firstClose fence body = None).
  { intros fence. apply firstClose_closesLater.
    apply closesLater_no_line_break. exact Hb. }
  split; rewrite scan_newLexer.
  - change fenceYAML with [b_minus; b_minus; b_minus].
    change (startState ([b_minus; b_minus; b_minus] ++ lb ++ body))
      with LexFrontmatterYAML.
    rewrite (run_fence_document b_minus itemFrontmatterYAML invalidYAML
               unclosedYAML ltac:(cbn; lia) LexFrontmatterYAML _ (lb ++ body)
               ltac:(reflexivity)).
    unfold fenceItems. cbv zeta. rewrite Hdrop, Hnone. reflexivity.
  - change fenceTOML with [b_plus; b_plus; b_plus].
    change (startState ([b_plus; b_plus; b_plus] ++ lb ++ body))
      with LexFrontmatterTOML.
    rewrite (run_fence_document b_plus itemFrontmatterTOML invalidTOML
               unclosedTOML ltac:(cbn; lia) LexFrontmatterTOML _ (lb ++ body)
               ltac:(reflexivity)).
    unfold fenceItems. cbv zeta. rewrite Hdrop, Hnone. reflexivity.
Qed.

(** The theorem at a document whose only line holds the fence twice. *)
Lemma fence_in_line_does_not_close_witness :
  scan (fenceYAML ++ [] ++ bytes " title ---") =
    Some [mkItem itemError (bytes unclosedYAML)].
Proof.
  exact (proj1 (fence_in_line_does_not_close [] (bytes " title ---")
                  (or_introl eq_refl) eq_refl)).
Defined.

(** ** A JSON object that is never closed *)

Lemma hasByte_skipn (b : byte) (s : list byte) (k : nat) :
  hasByte b s = false -> hasByte b (skipn k s) = false.
Proof.
  revert s. induction k as [|k IH]; intros s H; [exact H|].
  destruct s as [|e s']; [reflexivity|]. cbn [skipn]. apply IH.
  unfold hasByte in *. cbn [existsb] in H. apply orb_false_iff in H. apply H.
Qed.

Lemma next_hasByte (b : byte) (l : lexer) :
  good l ->
  hasByte b (from (input l) (pos l)) = false ->
  hasByte b (from (input (snd (next l))) (pos (snd (next l)))) = false.
Proof.
  intros G H. rewrite next_from by exact G. apply hasByte_skipn. exact H.
Qed.

Lemma next_not_byte (b : byte) (l : lexer) :
  good l -> byteZ b < 128 ->
  hasByte b (from (input l) (pos l)) = false ->
  (fst (next l) =? byteZ b) = false.
Proof.
  intros G Hb H. destruct (fst (next l) =? byteZ b) eqn:E; [|reflexivity].
  destruct G as (G0 & G1 & G2).
  destruct (next_is_byte l b ltac:(lia) Hb E) as (rest & Es & _).
  rewrite Es in H. unfold hasByte in H. cbn [existsb] in H.
  rewrite (byte_dec_lb (eq_refl b)) in H. discriminate H.
Qed.

(** Without a right brace ahead, a level of one or more never comes back to
    zero: the loop reads to the end of the input and reports it. *)
Lemma jsonLoop_no_rbrace (fuel : nat) (q : bool) (lv : Z) (l : lexer) :
  good l ->
  hasByte b_rbrace (from (input l) (pos l)) = false ->
  1 <= lv ->
  len l - pos l < Z.of_nat fuel ->
  jsonLoop fuel q lv l =
    Some (JReturn (errorf unexpectedJSON
                     (mkLexer (input l) (start l) (len l) 0 (items l)))).
Proof.
  revert q lv l. induction fuel as [|fuel IH]; intros q lv l G Hb Hlv Hf.
  - destruct G as (? & ? & ?). lia.
  - cbn [jsonLoop].
    pose proof (next_good l G) as (G1 & Hmono & Hadv & Heof).
    pose proof (next_frame l) as (Fi & Fs & Fit).
    pose proof (next_hasByte b_rbrace l G Hb) as Hb1.
    pose proof (next_not_byte b_rbrace l G ltac:(cbn; lia) Hb) as Hnr.
    destruct (next l) as [r l1] eqn:E. cbn [fst snd] in *.
    destruct (Z.eqb_spec r eof) as [Hr|Hr].
    + specialize (Heof Hr). rewrite next_at_end in E by exact Heof.
      injection E as _ <-. destruct G as (? & ? & ?).
      replace (len l) with (pos l) by lia. destruct l; reflexivity.
    + specialize (Hadv Hr).
      pose proof (next_good l1 G1) as (G2 & Hmono2 & _).
      pose proof (next_frame l1) as (Fi2 & Fs2 & Fit2).
      pose proof (next_hasByte b_rbrace l1 G1 Hb1) as Hb2.
      change (byteZ b_rbrace) with r_rbrace in Hnr.
      unfold jsonSwitch. rewrite Hnr.
      assert (Hrec : forall q' lv' l2,
                 1 <= lv' -> good l2 -> input l2 = input l1 ->
                 start l2 = start l1 -> items l2 = items l1 ->
                 pos l1 <= pos l2 ->
                 hasByte b_rbrace (from (input l2) (pos l2)) = false ->
                 (if lv' =? 0 then Some (JBreak l2)
                  else jsonLoop fuel q' lv' l2) =
                 Some (JReturn (errorf unexpectedJSON
                                  (mkLexer (input l) (start l) (len l) 0
                                     (items l))))).
      { intros q' lv' l2 Hlv' Gl2 I2 S2 It2 P2 Hb'.
        destruct (Z.eqb_spec lv' 0); [lia|].
        rewrite IH; [|exact Gl2|exact Hb'|exact Hlv'
                     |unfold len in *; rewrite I2, Fi; lia].
        unfold len. rewrite I2, S2, It2, Fi, Fs, Fit. reflexivity. }
      destruct (r =? r_lbrace).
      * destruct q; cbn [negb]; apply Hrec; auto; lia.
      * destruct (r =? r_quote); [apply Hrec; auto; lia|].
        destruct (r =? r_backslash); cbn [snd]; apply Hrec; auto; lia.
Qed.

(** X4: An input that opens with a left brace and holds no right brace yields
    one item, the error of the unexpected end of the JSON frontmatter. *)
Theorem json_without_closing_brace (rest : list byte) :
  hasByte b_rbrace rest = false ->
  scan (b_lbrace :: rest) = Some [mkItem itemError (bytes unexpectedJSON)].
Proof.
  intros Hb. rewrite scan_newLexer.
  change (startState (b_lbrace :: rest)) with LexFrontmatterJSON.
  set (l0 := set_width _ _). rewrite run_step. cbn [call].
  unfold lexFrontmatterJSON. cbn [jsonLoop].
  destruct (next_byte l0 b_lbrace rest ltac:(subst l0; cbn; lia) eq_refl
              ltac:(cbn; lia)) as [-> Hs1].
  change (byteZ b_lbrace =? eof) with false.
  change (jsonSwitch (byteZ b_lbrace) false 0 ?x) with (false, 0 + 1, x).
  cbn iota. change (0 + 1 =? 0) with false. cbn iota.
  rewrite jsonLoop_no_rbrace.
  - reflexivity.
  - subst l0. unfold good, len. cbn. lia.
  - cbn [input pos set_pos set_width]. rewrite Hs1. exact Hb.
  - lia.
  - subst l0. unfold len. cbn [input pos set_pos set_width newLexer length].
    lia.
Qed.

(** The theorem at an object whose brace is never closed. *)
Lemma json_without_closing_brace_witness :
  scan (bytes "{ a: 1") = Some [mkItem itemError (bytes unexpectedJSON)].
Proof. exact (json_without_closing_brace (bytes " a: 1") eq_refl). Defined.

(** ** The shape of a run *)

Lemma jsonLoop_result (fuel : nat) (q : bool) (lv : Z) (l : lexer)
  (e : jsonExit) :
  good l ->
  jsonLoop fuel q lv l = Some e ->
  match e with
  | JBreak l' =>
      pos l < pos l' /\ good l' /\ start l' = start l /\ items l' = items l
  | JReturn (l', st) =>
      st = None /\
      items l' = items l ++ [mkItem itemError (bytes unexpectedJSON)]
  end.
Proof.
  revert q lv l. induction fuel as [|fuel IH]; intros q lv l G R;
    [discriminate R|].
  cbn [jsonLoop] in R.
  pose proof (next_good l G) as (G1 & Hmono & Hadv & Heof).
  pose proof (next_frame l) as (Fi & Fs & Fit).
  destruct (next l) as [r l1] eqn:E. cbn [fst snd] in *.
  destruct (Z.eqb_spec r eof) as [Hr|Hr].
  - injection R as <-. cbn. rewrite Fit. auto.
  - specialize (Hadv Hr).
    pose proof (jsonSwitch_good r q lv l1 G1) as (G2 & Si & Ss & Sit & Sp).
    destruct (jsonSwitch r q lv l1) as [[q' lv'] l2]. cbn [snd] in *.
    destruct (lv' =? 0).
    + injection R as <-. repeat split; try apply G2; try congruence; lia.
    + specialize (IH q' lv' l2 G2 R). destruct e as [l'|[l' st]].
      * destruct IH as (A & B & C & D).
        repeat split; try apply B; try congruence; lia.
      * destruct IH as [-> Hi]. split; [reflexivity|]. rewrite Hi, Sit, Fit.
        reflexivity.
Qed.

(** What a frontmatter state sends: one error and the end of the run, or
    one frontmatter item that is not empty and the content state. *)
Lemma frontmatter_call_items (fuel : nat) (st : stateFunc) (l l' : lexer)
  (st' : option stateFunc) :
  good l -> rank st = 2%nat ->
  call fuel st l = Some (l', st') ->
  (st' = None /\ exists m, items l' = items l ++ [mkItem itemError m]) \/
  (st' = Some LexMarkdown /\
   exists t v,
     (t = itemFrontmatterTOML \/ t = itemFrontmatterYAML \/
      t = itemFrontmatterJSON) /\
     v <> [] /\ items l' = items l ++ [mkItem t v]).
Proof.
  intros G Hr R.
  assert (Hfence : forall delim fence t invalid unclosed,
             lexFrontmatterFence delim fence t invalid unclosed fuel l =
               Some (l', st') ->
             (st' = None /\
              exists m, items l' = items l ++ [mkItem itemError m]) \/
             (st' = Some LexMarkdown /\
              exists v, v <> [] /\ items l' = items l ++ [mkItem t v])).
  { intros delim fence t invalid unclosed Rf.
    unfold lexFrontmatterFence in Rf.
    pose proof (openFence_good delim 3 l G) as (G1 & _ & _ & Oit).
    destruct (openFence delim 3 l) as [ok l1]. cbn [snd] in *.
    destruct (negb ok).
    - injection Rf as <- <-. left. split; [reflexivity|].
      eexists. cbn. rewrite Oit. reflexivity.
    - pose proof (consumeCRLF_good l1 G1) as (G2 & _ & _ & Cit & _).
      destruct (consumeCRLF l1) as [c l2]. cbn [snd] in *.
      pose proof (closeFence_items _ _ _ _ _ _ _ (ignore_good l2 G2) Rf)
        as [[-> Hi]|[-> (v & Hv & Hi)]].
      + left. split; [reflexivity|]. eexists. rewrite Hi.
        change (items (ignore l2)) with (items l2). rewrite Cit, Oit.
        reflexivity.
      + right. split; [reflexivity|]. exists v. split; [exact Hv|].
        rewrite Hi. change (items (ignore l2)) with (items l2).
        rewrite Cit, Oit. reflexivity. }
  destruct st; cbn in Hr; try discriminate Hr; cbn [call] in R.
  - destruct (Hfence _ _ _ _ _ R) as [H|[H (v & Hv & Hi)]]; [left; exact H|].
    right. split; [exact H|]. exists itemFrontmatterTOML, v. auto.
  - destruct (Hfence _ _ _ _ _ R) as [H|[H (v & Hv & Hi)]]; [left; exact H|].
    right. split; [exact H|]. exists itemFrontmatterYAML, v. auto.
  - unfold lexFrontmatterJSON in R.
    destruct (jsonLoop fuel false 0 l) as [e|] eqn:E; [|discriminate R].
    pose proof (jsonLoop_result _ _ _ _ _ G E) as Hres.
    destruct e as [l1|[l1 st1]].
    + destruct Hres as (Hp & G1 & Hs & Hit).
      pose proof (consumeCRLF_good l1 G1) as (G2 & _ & Cs & Cit & Cp).
      destruct (consumeCRLF l1) as [c l2]. cbn [snd] in *.
      injection R as <- <-. right. split; [reflexivity|].
      exists itemFrontmatterJSON, (slice (input l2) (start l2) (pos l2)).
      split; [auto|]. split.
      * intros Ev. apply (f_equal (@length byte)) in Ev.
        apply (f_equal Z.of_nat) in Ev.
        destruct G as (? & ? & ?), G2 as (? & ? & ?).
        rewrite slice_length in Ev; cbn in Ev; unfold len in *; lia.
      * cbn. rewrite Cit, Hit. reflexivity.
    + destruct Hres as [-> Hi]. injection R as <- <-. left.
      split; [reflexivity|]. eexists. exact Hi.
Qed.

Lemma startState_rank (s : list byte) :
  startState s = LexMarkdown \/ rank (startState s) = 2%nat.
Proof.
  destruct s as [|b s]; cbn [startState]; [auto|].
  repeat match goal with
         | |- context [if ?c =? ?e then _ else _] => destruct (c =? e)
         end; auto.
Qed.

Lemma run_markdown (inp : list byte) (k : nat) (l : lexer) :
  good l -> input l = inp ->
  option_map items (run (S (S k)) (S (length inp)) (Some LexMarkdown) l) =
    Some (items l ++ [mkItem itemMarkdown (from inp (start l));
                      mkItem itemEOF []]).
Proof.
  intros G I. rewrite run_step. cbn [call].
  rewrite lexMarkdown_spec;
    [|exact G|unfold len; rewrite I; destruct G as (? & ? & ?); lia].
  rewrite run_step. cbn [call lexDone].
  replace (run k (S (length inp)) None _) with
    (Some (emit itemEOF (emit itemMarkdown
             (mkLexer (input l) (start l) (len l) 0 (items l)))))
    by (destruct k; reflexivity).
  cbn [option_map items emit send set_start input start pos].
  unfold len. rewrite I, slice_to_end, slice_empty, <- app_assoc.
  reflexivity.
Qed.

Lemma scan_cases (inp : list byte) :
  exists its, scan inp = Some its /\ runShape inp its.
Proof.
  rewrite scan_newLexer. set (l0 := set_width _ _).
  assert (G0 : good l0) by apply set_width_good, newLexer_good.
  destruct (startState_rank inp) as [E|E].
  - (* no frontmatter *)
    rewrite E, (run_markdown inp 1 l0 G0 eq_refl).
    eexists. split; [reflexivity|]. left. reflexivity.
  - rewrite run_step.
    destruct (call_total (S (length inp)) (startState inp) l0 G0)
      as (l1 & st1 & R & Ri & Rp).
    { unfold len; cbn. lia. }
    { intros Hd. rewrite Hd in E. discriminate E. }
    rewrite R.
    destruct (frontmatter_call_items _ _ _ _ _ G0 E R)
      as [[-> (m & Hm)]|[-> (t & v & Ht & Hv & Hi)]].
    + exists (items l1). split; [reflexivity|]. right. right.
      exists m. exact Hm.
    + destruct Rp as (G1 & _).
      rewrite (run_markdown inp 0 l1 G1 Ri), Hi.
      eexists. split; [reflexivity|]. right. left.
      exists t, v, (from inp (start l1)), (firstn (Z.to_nat (start l1)) inp).
      split; [reflexivity|]. split; [exact Ht|]. split; [exact Hv|].
      symmetry. apply firstn_skipn.
Qed.

(** X6: Every run has one of three shapes: the content item holding the whole
    input and the end marker; one frontmatter item that is not empty, the
    content item and the end marker, the content being the end of the input;
    or one error item and nothing else.  So an error item is never preceded
    or followed by another item, no run sends more than three items, and
    the end marker carries no bytes. *)
Theorem scan_shape (inp : list byte) :
  exists its, scan inp = Some its /\ runShape inp its.
Proof. exact (scan_cases inp). Qed.

(** ** [parse] and [main] *)


(** X12: [parse] prints every item of the run but the end marker, in order, and
    returns no error, also when the run ends with an error item, which is
    printed like any other item. *)
Theorem parse_prints_items (inp : list byte) :
  exists out,
    parse (ReadOK inp) = Some (out, None) /\
    (scan inp = Some (out ++ [mkItem itemEOF []]) \/
     (exists m, out = [mkItem itemError m] /\ scan inp = Some out)).
Proof.
  destruct (scan_cases inp) as (its & R & Hs). unfold parse. rewrite R.
  eexists. split; [reflexivity|].
  destruct Hs as [-> | [(t & v & w & pre & -> & Ht & _) | (m & ->)]].
  - left. reflexivity.
  - left. destruct Ht as [-> | [-> | ->]]; reflexivity.
  - right. exists m. split; reflexivity.
Qed.


(** ** The JSON item and the content share out the input *)

Lemma lexFrontmatterJSON_result (fuel : nat) (l l' : lexer)
  (st' : option stateFunc) :
  good l ->
  lexFrontmatterJSON fuel l = Some (l', st') ->
  (st' = None /\
   items l' = items l ++ [mkItem itemError (bytes unexpectedJSON)]) \/
  (st' = Some LexMarkdown /\ good l' /\ input l' = input l /\
   pos l < start l' /\
   items l' =
     items l ++ [mkItem itemFrontmatterJSON
                   (slice (input l) (start l) (start l'))]).
Proof.
  intros G R. unfold lexFrontmatterJSON in R.
  destruct (jsonLoop fuel false 0 l) as [e|] eqn:E; [|discriminate R].
  pose proof (jsonLoop_result _ _ _ _ _ G E) as Hres.
  destruct e as [l1|[l1 st1]].
  - destruct Hres as (Hp & G1 & Hs & Hit).
    pose proof (consumeCRLF_good l1 G1) as (G2 & Ci & Cs & Cit & Cp).
    destruct (consumeCRLF l1) as [c l2]. cbn [snd] in *.
    injection R as <- <-. right. split; [reflexivity|].
    split; [apply emit_good; exact G2|].
    assert (Hi : input l1 = input l).
    { clear - E G. revert E. generalize false, 0. revert l G.
      induction fuel as [|fuel IH]; intros l G q lv E; [discriminate E|].
      cbn [jsonLoop] in E.
      pose proof (next_good l G) as (G1' & _).
      pose proof (next_frame l) as (Fi & _).
      destruct (next l) as [r l0]. cbn [fst snd] in *.
      destruct (r =? eof); [discriminate E|].
      pose proof (jsonSwitch_good r q lv l0 G1') as (G2' & Si & _).
      destruct (jsonSwitch r q lv l0) as [[q' lv'] l2']. cbn [snd] in *.
      destruct (lv' =? 0).
      - injection E as <-. congruence.
      - rewrite (IH l2' G2' q' lv' E). congruence. }
    cbn [input start pos items emit send set_start].
    split; [congruence|]. split; [lia|].
    rewrite Cit, Hit, Ci, Cs, Hi, Hs. reflexivity.
  - destruct Hres as [-> Hi]. injection R as <- <-. left. auto.
Qed.

(** X5: On an input that opens with a left brace, nothing is dropped: either
    the only item is the error of the unexpected end, or the JSON item and
    the content item, put end to end, are the input, the JSON item being
    its beginning. *)
Theorem json_document_partition (rest : list byte) :
  exists its,
    scan (b_lbrace :: rest) = Some its /\
    (its = [mkItem itemError (bytes unexpectedJSON)] \/
     exists v w,
       its = [mkItem itemFrontmatterJSON v; mkItem itemMarkdown w;
              mkItem itemEOF []] /\
       v <> [] /\ b_lbrace :: rest = v ++ w).
Proof.
  set (inp := b_lbrace :: rest). rewrite scan_newLexer.
  change (startState inp) with LexFrontmatterJSON.
  set (l0 := set_width _ _).
  assert (G0 : good l0) by apply set_width_good, newLexer_good.
  rewrite run_step.
  destruct (call_total (S (length inp)) LexFrontmatterJSON l0 G0)
    as (l1 & st1 & R & _ & _); [unfold len; cbn; lia|discriminate|].
  rewrite R. cbn [call] in R.
  destruct (lexFrontmatterJSON_result _ _ _ _ G0 R)
    as [[-> Hi]|(-> & G1 & I1 & Hp & Hi)].
  - exists (items l1). split; [reflexivity|]. left. exact Hi.
  - rewrite (run_markdown inp 0 l1 G1 I1), Hi.
    eexists. split; [reflexivity|]. right.
    exists (slice inp 0 (start l1)), (from inp (start l1)).
    split; [reflexivity|]. split.
    + intros Ev. apply (f_equal (@length byte)) in Ev.
      apply (f_equal Z.of_nat) in Ev. destruct G1 as (? & ? & ?).
      unfold len in *. rewrite I1 in *. change (input l0) with inp in *.
      change (pos l0) with 0 in Hp. cbn [length] in Ev.
      rewrite slice_length in Ev; lia.
    + unfold slice, from. rewrite Z.sub_0_r. cbn [Z.to_nat skipn].
      symmetry. apply firstn_skipn.
Qed.

(** ** Bytes and runes at the read position *)

(** X9: [next] reads a byte below 0x80 as itself, with width one, and never
    makes a rune below 0x80 out of anything else: bytes from 0x80 up,
    whether they form a valid encoding or not, are never taken for a fence
    character, a brace, a quote, a backslash or a line break. *)
Theorem next_reads_ascii_as_itself (l : lexer) (b : byte) (rest : list byte) :
  0 <= pos l ->
  from (input l) (pos l) = b :: rest ->
  (byteZ b < 128 ->
   next l = (byteZ b, set_pos (set_width l 1) (pos l + 1))) /\
  (128 <= byteZ b -> 128 <= fst (next l)) /\
  (fst (next l) < 128 <-> byteZ b < 128).
Proof.
  intros Hp Hs. pose proof (next_rune_cases l Hp) as N. rewrite Hs in N.
  pose proof (byteZ_range b) as Rb.
  split; [|split].
  - intros Hb. destruct N as [[_ N]|[N _]]; [exact N|lia].
  - intros Hb. destruct N as [[N _]|[_ N]]; [lia|exact N].
  - destruct N as [[Hb N]|[Hb N]].
    + rewrite N. cbn [fst]. tauto.
    + split; lia.
Qed.

(** The theorem in front of the two bytes of a letter with an accent. *)
Lemma next_reads_ascii_as_itself_witness :
  128 <= fst (next (newLexer [xc3; xa9])).
Proof.
  pose proof (next_reads_ascii_as_itself (newLexer [xc3; xa9]) xc3 [xa9]
                ltac:(cbn; lia) eq_refl) as (_ & H & _).
  apply H. vm_compute. discriminate.
Defined.
